(** * GreenCloud-FileServer: LRU memory cache, throughput-gated reader and
    hedged fetch orchestrator, embedded from [cache.go], [reader.go] and the
    handler, with the properties of the design document checked against them. *)

From Stdlib Require Import ZArith List Lia Bool.
From Stdlib Require Import Floats.PrimFloat Numbers.Cyclic.Int63.Uint63.
From stdpp Require Import base gmap list strings.

Local Open Scope Z_scope.

(** ** Machine integers *)

(** Go's [int64] arithmetic wraps around in two's complement. *)
Definition wrap64 (z : Z) : Z := (z + 2 ^ 63) mod 2 ^ 64 - 2 ^ 63.

(** A payload is a byte slice; [len] of a slice is a non-negative [int]
    (64 bits on the target [GOARCH=amd64]), converted by [int64(len(data))]. *)
Abbreviation bytes := (list Byte.byte).

Definition len64 (data : bytes) : Z := Z.of_nat (length data).

(** ** cache.go: the memory-bounded LRU cache *)

Module Cache.

(** [CacheItem]: a cached file in memory. *)
Record CacheItem := mkItem { Key : string; Data : bytes }.

(** A list element is handled through a pointer.  The embedding keeps the pointer
    structure of the source: the recency list [ll] holds element addresses
    (front of the list first), the index [cache] maps a key to an element
    address, and [heap] gives the item that [elem.Value] points to.
    [next] is the allocator of [PushFront]: the next unused address. *)
Definition Element := nat.

Record MemoryCache := mkCache {
  maxBytes : Z;
  usedBytes : Z;
  ll : list Element;
  cache : gmap string Element;
  heap : gmap Element CacheItem;
  next : Element
}.

(** The cache item held in [elem.Value].  Every address found in [ll] or [cache] was
    produced by [PushFront], so the lookup is always defined in the source;
    the default is never read on a well-formed cache (see [wf_heap]). *)
Definition Value (c : MemoryCache) (e : Element) : CacheItem :=
  default (mkItem EmptyString []) (heap c !! e).

(** [NewMemoryCache]. *)
Definition NewMemoryCache (maxBytes : Z) : MemoryCache :=
  mkCache maxBytes 0 [] ∅ ∅ O.

(** container/list: [l.Remove(e)] unlinks [e] when it belongs to [l]. *)
Fixpoint Remove (e : Element) (l : list Element) : list Element :=
  match l with
  | [] => []
  | x :: l' => if decide (x = e) then l' else x :: Remove e l'
  end.

(** container/list: [l.MoveToFront(e)]; nothing happens when [e] is not an
    element of [l] or is already at the front. *)
Definition MoveToFront (e : Element) (l : list Element) : list Element :=
  if decide (e ∈ l) then e :: Remove e l else l.

(** container/list: [l.Back()], [nil] on the empty list. *)
Definition Back (l : list Element) : option Element := last l.

(** [MemoryCache.Get]: the payload and the [ok] flag, and the cache after
    the recency update. *)
Definition Get (key : string) (c : MemoryCache) : (bytes * bool) * MemoryCache :=
  match cache c !! key with
  | Some elem =>
      ((Data (Value c elem), true),
       mkCache (maxBytes c) (usedBytes c) (MoveToFront elem (ll c))
               (cache c) (heap c) (next c))
  | None => (([], false), c)
  end.

(** One iteration of the loop body of [evict], for the element [elem] at the
    back of the list. *)
Definition evict_one (elem : Element) (c : MemoryCache) : MemoryCache :=
  let item := Value c elem in
  mkCache (maxBytes c)
          (wrap64 (usedBytes c - len64 (Data item)))
          (Remove elem (ll c))
          (delete (Key item) (cache c))
          (heap c) (next c).

(** The loop of [evict].  Every iteration that finds a back element removes
    it, so the list length bounds the number of iterations. *)
Fixpoint evict_loop (fuel : nat) (c : MemoryCache) : MemoryCache :=
  match fuel with
  | O => c
  | S fuel' =>
      if (usedBytes c >? maxBytes c) && (0 <? Z.of_nat (length (ll c))) then
        match Back (ll c) with
        | Some elem => evict_loop fuel' (evict_one elem c)
        | None => evict_loop fuel' c
        end
      else c
  end.

(** [MemoryCache.evict]. *)
Definition evict (c : MemoryCache) : MemoryCache :=
  evict_loop (length (ll c)) c.

(** [MemoryCache.Set] ([Set] is a reserved word, hence the underscore). *)
Definition Set_ (key : string) (data : bytes) (c : MemoryCache) : MemoryCache :=
  let dataSize := len64 data in
  if dataSize >? maxBytes c then c
  else
    match cache c !! key with
    | Some elem =>
        let oldItem := Value c elem in
        let used1 := wrap64 (usedBytes c - len64 (Data oldItem)) in
        evict (mkCache (maxBytes c)
                       (wrap64 (used1 + dataSize))
                       (MoveToFront elem (ll c))
                       (cache c)
                       (<[elem := mkItem (Key oldItem) data]> (heap c))
                       (next c))
    | None =>
        let elem := next c in
        evict (mkCache (maxBytes c)
                       (wrap64 (usedBytes c + dataSize))
                       (elem :: ll c)
                       (<[key := elem]> (cache c))
                       (<[elem := mkItem key data]> (heap c))
                       (S elem))
    end.

(** Sequences of operations on one cache. *)
Inductive op :=
| OpGet (key : string)
| OpSet (key : string) (data : bytes).

Definition step (c : MemoryCache) (o : op) : MemoryCache :=
  match o with
  | OpGet key => snd (Get key c)
  | OpSet key data => Set_ key data c
  end.

Definition run (B : Z) (ops : list op) : MemoryCache :=
  fold_left step ops (NewMemoryCache B).

(** The retained entries, most recently used first, and the observable
    lookup (what a [Get] would return, without the recency update). *)
Definition entries (c : MemoryCache) : list CacheItem := Value c <$> ll c.

Definition lookup_data (c : MemoryCache) (key : string) : option bytes :=
  (fun e => Data (Value c e)) <$> cache c !! key.

Definition sizes (c : MemoryCache) : Z :=
  foldr (fun it acc => len64 (Data it) + acc) 0 (entries c).

(** *** The state invariant of the design document *)

(** The size of the entry held by an element, and the sum of a measure over
    a list of elements. *)
Definition size_at (c : MemoryCache) (e : Element) : Z := len64 (Data (Value c e)).

Fixpoint total (f : Element → Z) (l : list Element) : Z :=
  match l with
  | [] => 0
  | e :: l' => f e + total f l'
  end.

(** What one operation sets for [key], when it is a [Set] of [key] whose
    payload satisfies [accept]. *)
Definition set_payload (accept : bytes → bool) (o : op) (key : string)
    : option bytes :=
  match o with
  | OpSet k d => if bool_decide (k = key) && accept d then Some d else None
  | OpGet _ => None
  end.

(** The payload of the most recent [Set] of [key] among [ops] (in execution
    order) that satisfies [accept]. *)
Fixpoint last_set (accept : bytes → bool) (ops : list op) (key : string)
    : option bytes :=
  match ops with
  | [] => None
  | o :: ops' =>
      match last_set accept ops' key with
      | Some d => Some d
      | None => set_payload accept o key
      end
  end.

(** Every [Set] counts. *)
Definition any_set : bytes → bool := fun _ => true.

(** Only a [Set] whose payload fits the budget counts. *)
Definition fits (B : Z) : bytes → bool := fun d => len64 d <=? B.

(** Index and recency order describe the same entries: a key is indexed to
    an element exactly when that element is in the list and carries the key,
    and no element is listed twice. *)
Definition index_matches_order (c : MemoryCache) : Prop :=
  NoDup (ll c) ∧
  ∀ k e, cache c !! k = Some e ↔ e ∈ ll c ∧ Key (Value c e) = k.

(** Every retained entry holds the payload of the last counted [Set] of its
    key. *)
Definition matches_last_set (accept : bytes → bool) (ops : list op)
    (c : MemoryCache) : Prop :=
  ∀ e, e ∈ ll c → last_set accept ops (Key (Value c e)) = Some (Data (Value c e)).

Definition cache_invariant (accept : bytes → bool) (B : Z) (ops : list op)
    (c : MemoryCache) : Prop :=
  usedBytes c = sizes c ∧
  usedBytes c <= B ∧
  index_matches_order c ∧
  matches_last_set accept ops c.

(** The invariant on which the operations rely, for a cache of budget [B]
    that has executed [ops]. *)
Record wf (B : Z) (ops : list op) (c : MemoryCache) : Prop := mkWf {
  wf_max : maxBytes c = B;
  wf_nodup : NoDup (ll c);
  wf_heap : ∀ e, e ∈ ll c → is_Some (heap c !! e);
  wf_index : ∀ k e, cache c !! k = Some e ↔ e ∈ ll c ∧ Key (Value c e) = k;
  wf_fresh : ∀ e, e ∈ ll c → (e < next c)%nat;
  wf_used : usedBytes c = sizes c;
  wf_hist : matches_last_set (fits B) ops c
}.

(** The scenario of the design document: budget for exactly two one-byte
    items; [A], [B], [C] are inserted, [A] is read, [D] is inserted. *)
Definition item1 : bytes := [Byte.x2a].

Definition lru_scenario : list op :=
  [OpSet "A" item1; OpSet "B" item1; OpSet "C" item1; OpGet "A"; OpSet "D" item1].

(** The same with room for the touched entry: [A] and [B] are inserted, [A]
    is read, [C] is inserted. *)
Definition lru_scenario_two : list op :=
  [OpSet "A" item1; OpSet "B" item1; OpGet "A"; OpSet "C" item1].

(** The outcome the design document announces for its scenario: [B] is
    gone and the touched [A] is still there. *)
Definition lru_scenario_claimed : Prop :=
  let c := run 2 lru_scenario in
  lookup_data c "B" = None ∧ lookup_data c "A" = Some item1.

(** The recency list once [key] has been made most recently used, before
    eviction runs: what [Set] hands to [evict]. *)
Definition touched (key : string) (c : MemoryCache) : list Element :=
  match cache c !! key with
  | Some e => e :: Remove e (ll c)
  | None => next c :: ll c
  end.

(** The cache that [Set] hands to [evict] when the payload is not
    oversized: the entry of [key] updated or created, at the front. *)
Definition Set_pre (key : string) (data : bytes) (c : MemoryCache) : MemoryCache :=
  match cache c !! key with
  | Some elem =>
      mkCache (maxBytes c)
        (wrap64 (wrap64 (usedBytes c - len64 (Data (Value c elem))) + len64 data))
        (MoveToFront elem (ll c)) (cache c)
        (<[elem := mkItem (Key (Value c elem)) data]> (heap c)) (next c)
  | None =>
      mkCache (maxBytes c) (wrap64 (usedBytes c + len64 data))
        (next c :: ll c) (<[key := next c]> (cache c))
        (<[next c := mkItem key data]> (heap c)) (S (next c))
  end.

(** The bytes that the entry of [key] occupies, zero when there is none. *)
Definition stored_size (c : MemoryCache) (key : string) : Z :=
  match lookup_data c key with
  | Some d => len64 d
  | None => 0
  end.

Definition is_get (o : op) : Prop :=
  match o with OpGet _ => True | OpSet _ _ => False end.

End Cache.

(** ** Errors, contexts and the clock *)

(** The error values that flow through the reader and the handler.  Failures
    of [os.Open] and [file.Read] come from the operating system; a context
    reports [Canceled] or [DeadlineExceeded]; [ErrTooSlow] is the package
    variable of [reader.go], and [EOF] is [io.EOF]. *)
Inductive os_error := ErrNotExist | ErrPermission | ErrIO.
Inductive ctx_error := Canceled | DeadlineExceeded.
Inductive error :=
| EOF
| ErrTooSlow
| PathError (e : os_error)
| ContextError (e : ctx_error).

#[global] Instance os_error_eq_dec : EqDecision os_error.
Proof. solve_decision. Defined.
#[global] Instance ctx_error_eq_dec : EqDecision ctx_error.
Proof. solve_decision. Defined.
#[global] Instance error_eq_dec : EqDecision error.
Proof. solve_decision. Defined.

(** [errors.Is(err, target)]: none of the errors above wraps another one. *)
Definition errors_Is (err target : error) : bool := bool_decide (err = target).

(** [os.IsNotExist]. *)
Definition os_IsNotExist (err : error) : bool :=
  bool_decide (err = PathError ErrNotExist).

(** Time is a monotonic clock counting nanoseconds; a [time.Duration] is an
    [int64] number of nanoseconds. *)
Definition Time := Z.
Definition Duration := Z.
Definition Second : Duration := 1000000000.
Definition Millisecond : Duration := 1000000.

(** A [context.Context]: never done ([context.Background]), or done from
    some instant on with a fixed error.  [ctx.Err()] read at time [now]. *)
Record Context := mkContext { done_from : option (Time * ctx_error) }.

Definition Background : Context := mkContext None.

Definition ctx_Err (ctx : Context) (now : Time) : option error :=
  match done_from ctx with
  | Some (t, e) => if t <=? now then Some (ContextError e) else None
  | None => None
  end.

(** ** reader.go: the throughput-gated reader *)

Module Reader.

(** [float64(x)] for an [int64] [x]: rounded to the nearest double. *)
Definition float64_of_int64 (x : Z) : float :=
  if x =? - 2 ^ 63 then (-9223372036854775808)%float
  else if x <? 0 then PrimFloat.opp (PrimFloat.of_uint63 (Uint63.of_Z (- x)))
  else PrimFloat.of_uint63 (Uint63.of_Z x).

(** [time.Duration.Seconds]:
    [sec := d / Second; nsec := d % Second; float64(sec) + float64(nsec)/1e9]. *)
Definition Seconds (d : Duration) : float :=
  let sec := Z.quot d Second in
  let nsec := Z.rem d Second in
  (float64_of_int64 sec + float64_of_int64 nsec / 1e9)%float.

(** The speed in Mbps computed by [Read]:
    [(float64(r.bytesRead) * 8) / (1024 * 1024 * elapsed.Seconds())]. *)
Definition speedMbps (bytesRead : Z) (elapsed : Duration) : float :=
  ((float64_of_int64 bytesRead * 8) / (1048576 * Seconds elapsed))%float.

(** What one call [file.Read(p)] of the wrapped file does: the bytes it puts
    in [p], its error, and the time the call takes. *)
Record read_outcome := mkOutcome {
  ro_data : bytes;
  ro_err : option error;
  ro_dur : N
}.

(** [HedgingReader]; the wrapped file is represented by the outcomes of its
    reads, which [Read] receives as an argument. *)
Record HedgingReader := mkReader {
  ctx : Context;
  startTime : Time;
  bytesRead : Z;
  checkTime : Duration;
  minSpeed : float
}.

(** [NewHedgingReader], with [time.Now()] read as [now]. *)
Definition NewHedgingReader (ctx : Context) (now : Time)
    (checkTime : Duration) (minSpeed : float) : HedgingReader :=
  mkReader ctx now 0 checkTime minSpeed.

(** [HedgingReader.Read], entered at time [now]; [o] is what [r.file.Read(p)]
    does when it is called.  Returns [(n, err)], the reader and the time at
    which the call returns. *)
Definition Read (r : HedgingReader) (o : read_outcome) (now : Time)
    : (Z * option error) * HedgingReader * Time :=
  match ctx_Err (ctx r) now with
  | Some err => ((0, Some err), r, now)
  | None =>
      let n := len64 (ro_data o) in
      let now' := now + Z.of_N (ro_dur o) in
      let r' :=
        if 0 <? n
        then mkReader (ctx r) (startTime r) (wrap64 (bytesRead r + n))
                      (checkTime r) (minSpeed r)
        else r in
      let elapsed := now' - startTime r' in
      if (elapsed >=? checkTime r')
         && PrimFloat.ltb (speedMbps (bytesRead r') elapsed) (minSpeed r')
      then ((n, Some ErrTooSlow), r', now')
      else ((n, ro_err o), r', now')
  end.

End Reader.

(** ** The handler: hedged reads and request coalescing *)

Module Handler.

Import Reader.

(** An open file, as the sequence of reads it will answer: successful reads
    ([err == nil]) followed by a last read that reports [io.EOF] or an I/O
    failure. *)
Inductive read_end := AtEOF | Failed (e : os_error).

Definition end_error (e : read_end) : error :=
  match e with AtEOF => EOF | Failed e => PathError e end.

Inductive file_script :=
| ReadMore (data : bytes) (dur : N) (rest : file_script)
| ReadLast (data : bytes) (e : read_end) (dur : N).

(** The outcome of the next [file.Read]. *)
Definition next_read (f : file_script) : read_outcome :=
  match f with
  | ReadMore data dur _ => mkOutcome data None dur
  | ReadLast data e dur => mkOutcome data (Some (end_error e)) dur
  end.

(** One [os.Open] of the served path: how long it takes, and the file or the
    failure it returns. *)
Record attempt := mkAttempt {
  open_dur : N;
  open_result : os_error + file_script
}.

(** The storage and the scheduler seen by one fetch: the answer to the k-th
    [os.Open], and by how much [time.Sleep] oversleeps. *)
Record Env := mkEnv {
  attempts : nat -> attempt;
  oversleep : N
}.

(** What a fetch does, in order. *)
Inductive event :=
| EvOpen (useSpeedLimit : bool) (t : Time)
| EvRead (n : Z) (err : option error)
| EvSleep (t : Time) (d : Duration) (woke : Time).

Record World := mkWorld {
  now : Time;
  opened : nat;
  log : list event
}.

Definition emit (ev : event) (w : World) : World :=
  mkWorld (now w) (opened w) (log w ++ [ev]).

Definition advance (d : N) (w : World) : World :=
  mkWorld (now w + Z.of_N d) (opened w) (log w).

(** [time.Sleep(d)]: returns at once for [d <= 0], otherwise pauses for at
    least [d]. *)
Definition Sleep (env : Env) (d : Duration) (w : World) : World :=
  let woke := now w + Z.max 0 d + Z.of_N (oversleep env) in
  emit (EvSleep (now w) d woke) (mkWorld woke (opened w) (log w)).

Record FileHandler := mkHandler {
  baseDir : string;
  h_checkTime : Duration;
  h_minSpeed : float;
  hedgedDelay : Duration
}.

(** [reader.Read(chunk)] inside [doRead]: through the gated reader, or on the
    file itself. *)
Definition reader_Read (rd : option HedgingReader) (o : read_outcome) (w : World)
    : (Z * option error) * option HedgingReader * World :=
  match rd with
  | Some r =>
      let '(res, r', t) := Read r o (now w) in
      (res, Some r', emit (EvRead (fst res) (snd res)) (mkWorld t (opened w) (log w)))
  | None =>
      let res := (len64 (ro_data o), ro_err o) in
      (res, None, emit (EvRead (fst res) (snd res)) (advance (ro_dur o) w))
  end.

(** The [for] loop of [doRead].  A last read always reports an error (the
    gated reader returns the file's error, [ErrTooSlow] or the context's
    error), so the loop ends there; see [last_read_reports]. *)
Fixpoint read_loop (c : Context) (rd : option HedgingReader) (f : file_script)
    (buf : bytes) (w : World) : (bytes * option error) * World :=
  match ctx_Err c (now w) with
  | Some err => (([], Some err), w)
  | None =>
      let o := next_read f in
      let '((n, readErr), rd', w') := reader_Read rd o w in
      let buf' := if 0 <? n then buf ++ take (Z.to_nat n) (ro_data o) else buf in
      match readErr with
      | Some err =>
          if errors_Is err EOF then ((buf', None), w') else (([], Some err), w')
      | None =>
          match f with
          | ReadMore _ _ rest => read_loop c rd' rest buf' w'
          | ReadLast _ _ _ => ((buf', None), w')
          end
      end
  end.

(** [FileHandler.doRead]. *)
Definition doRead (h : FileHandler) (env : Env) (c : Context)
    (useSpeedLimit : bool) (w : World) : (bytes * option error) * World :=
  let a := attempts env (opened w) in
  let w1 := advance (open_dur a)
              (emit (EvOpen useSpeedLimit (now w))
                    (mkWorld (now w) (S (opened w)) (log w))) in
  match open_result a with
  | inl err => (([], Some (PathError err)), w1)
  | inr file =>
      let reader :=
        if useSpeedLimit
        then Some (NewHedgingReader c (now w1) (h_checkTime h) (h_minSpeed h))
        else None in
      read_loop c reader file [] w1
  end.

(** [FileHandler.readHedged]. *)
Definition readHedged (h : FileHandler) (env : Env) (c : Context) (w : World)
    : (bytes * option error) * World :=
  let '((data, err), w1) := doRead h env c true w in
  match err with
  | None => ((data, None), w1)
  | Some e =>
      if errors_Is e ErrTooSlow
      then doRead h env c false (Sleep env (hedgedDelay h) w1)
      else (([], Some e), w1)
  end.

(** [singleflight.Group.Do] for one key: when a call for the key is in
    flight, the caller blocks until that call ends, at [done_at], and
    receives its result; otherwise the caller runs [fn] itself. *)
Definition sfGroup_Do {A} (inflight : option (A * Time)) (fn : World -> A * World)
    (w : World) : A * World :=
  match inflight with
  | Some (res, done_at) =>
      (res, mkWorld (Z.max (now w) done_at) (opened w) (log w))
  | None => fn w
  end.

(** The answers of [ServeHTTP]. *)
Inductive response :=
| MethodNotAllowed
| Forbidden
| NotFound
| InternalServerError
| Served (data : bytes).

Record Request := mkRequest {
  Method : string;
  cleanPath : string;   (* filepath.Clean(r.URL.Path) *)
  req_ctx : Context     (* r.Context() *)
}.

Section Serve.

(** [filepath.Join] of the standard library, which joins and cleans. *)
Variable Join : string -> string -> string.

(** [FileHandler.ServeHTTP].  [inflight] is the result, and the time of
    completion, of the call for the same key that is in flight when this
    request reaches [sfGroup.Do], if there is one.  The function passed to
    [Do] reads with the context of the request that runs it. *)
Definition ServeHTTP (h : FileHandler) (env : Env) (r : Request)
    (inflight : option ((bytes * option error) * Time))
    (mc : Cache.MemoryCache) (w : World)
    : response * Cache.MemoryCache * World :=
  if negb (bool_decide (Method r = "GET"%string)) then (MethodNotAllowed, mc, w)
  else if bool_decide (cleanPath r = "/"%string) then (Forbidden, mc, w)
  else
    let filePath := Join (baseDir h) (cleanPath r) in
    match Cache.Get filePath mc with
    | ((data, true), mc') => (Served data, mc', w)
    | (_, mc') =>
        let '((val, err), w') :=
          sfGroup_Do inflight (fun w0 => readHedged h env (req_ctx r) w0) w in
        match err with
        | Some e =>
            if os_IsNotExist e then (NotFound, mc', w')
            else (InternalServerError, mc', w')
        | None => (Served val, Cache.Set_ filePath val mc', w')
        end
    end.

End Serve.

End Handler.


(** ** Vocabulary for the claims on the reader and the handler *)

Module HandlerSpec.

Import Reader Handler.

(** The cumulative byte count after a read that delivered [data]
    ([if n > 0 { r.bytesRead += int64(n) }]). *)
Definition bump (bytesRead : Z) (data : bytes) : Z :=
  if 0 <? len64 data then wrap64 (bytesRead + len64 data) else bytesRead.

(** The judgment of [Read] on a cumulative byte count and an elapsed time,
    for the window [T] and the minimum speed [m]. *)
Definition too_slow (T : Duration) (m : float) (p : Z * Duration) : bool :=
  (snd p >=? T) && PrimFloat.ltb (speedMbps (fst p) (snd p)) m.

(** The cumulative byte count and the elapsed time at the end of every read
    of a file, for a session that has read [b] bytes in [el] nanoseconds. *)
Fixpoint checkpoints (f : file_script) (b : Z) (el : Duration)
    : list (Z * Duration) :=
  match f with
  | ReadMore data dur rest =>
      (bump b data, el + Z.of_N dur)
        :: checkpoints rest (bump b data) (el + Z.of_N dur)
  | ReadLast data _ dur => [(bump b data, el + Z.of_N dur)]
  end.

(** The time all the reads of a file take. *)
Fixpoint script_duration (f : file_script) : Duration :=
  match f with
  | ReadMore _ dur rest => Z.of_N dur + script_duration rest
  | ReadLast _ _ dur => Z.of_N dur
  end.

(** The cumulative average never is below the minimum at a read that ends
    past the window. *)
Definition rate_ok (h : FileHandler) (f : file_script) : Prop :=
  Forall (fun p => too_slow (h_checkTime h) (h_minSpeed h) p = false)
         (checkpoints f 0 0).

(** The first read that ends past the window [T]. *)
Fixpoint first_past (T : Duration) (l : list (Z * Duration))
    : option (Z * Duration) :=
  match l with
  | [] => None
  | p :: l' => if snd p >=? T then Some p else first_past T l'
  end.

(** The source has delivered enough bytes quickly enough when the window
    closes: the first judgment finds the rate at or above the minimum. *)
Definition fast_in_window (h : FileHandler) (f : file_script) : Prop :=
  ∃ p, first_past (h_checkTime h) (checkpoints f 0 0) = Some p
       ∧ too_slow (h_checkTime h) (h_minSpeed h) p = false.

(** Events of a fetch. *)
Definition is_read (ev : event) : Prop :=
  match ev with EvRead _ _ => True | _ => False end.

Definition quiet_read (ev : event) : Prop :=
  match ev with EvRead _ err => err ≠ Some ErrTooSlow | _ => False end.

Definition aborted_read (ev : event) : bool :=
  match ev with
  | EvRead _ (Some ErrTooSlow) => true
  | _ => false
  end.

(** The calls of [os.Open] among some events: with or without the gated
    reader, and when. *)
Fixpoint opens_of (evs : list event) : list (bool * Time) :=
  match evs with
  | [] => []
  | EvOpen g t :: evs' => (g, t) :: opens_of evs'
  | _ :: evs' => opens_of evs'
  end.

Fixpoint sleeps_of (evs : list event) : list (Time * Duration * Time) :=
  match evs with
  | [] => []
  | EvSleep t d woke :: evs' => (t, d, woke) :: sleeps_of evs'
  | _ :: evs' => sleeps_of evs'
  end.

(** What was logged between two states of the world. *)
Definition new_events (w w' : World) : list event :=
  drop (length (log w)) (log w').

(** What a piece of a fetch leaves behind: events that satisfy [P] appended
    to the log, no further [os.Open], and a clock that has not gone back. *)
Definition loop_post (P : event → Prop) (w : World)
    (out : (bytes * option error) * World) : Prop :=
  ∃ evs, log (snd out) = log w ++ evs
         ∧ Forall P evs
         ∧ opened (snd out) = opened w
         ∧ now w <= now (snd out).

(** What one attempt leaves behind: its [os.Open], then events that
    satisfy [P]. *)
Definition attempt_post (P : event → Prop) (g : bool) (w : World)
    (out : (bytes * option error) * World) : Prop :=
  ∃ evs, log (snd out) = log w ++ EvOpen g (now w) :: evs
         ∧ Forall P evs
         ∧ opened (snd out) = S (opened w)
         ∧ now w <= now (snd out).

(** Some judgment of a gated attempt on [f] finds the rate below the
    minimum. *)
Definition rate_fails (h : FileHandler) (f : file_script) : Prop :=
  Exists (fun p => too_slow (h_checkTime h) (h_minSpeed h) p = true)
         (checkpoints f 0 0).

(** The claim that only the window matters, for the gated attempt of a
    fetch: a file that is fast when the window closes is read without any
    read call returning [ErrTooSlow]. *)
Definition window_only (h : FileHandler) (env : Env) (c : Context) (w : World)
    : Prop :=
  ∀ file, open_result (attempts env (opened w)) = inr file →
    fast_in_window h file →
    existsb aborted_read (new_events w (snd (doRead h env c true w))) = false.

(** A handler with a window of one millisecond and the default minimum of
    5 Mbps, and a file that gives 1024 bytes within the window and one more
    byte a second later. *)
Definition h_example : FileHandler :=
  mkHandler "/data" Millisecond 5 (100 * Millisecond).

Definition stalling_file : file_script :=
  ReadMore (repeat Byte.x00 1024) 1000000
    (ReadLast [Byte.x01] AtEOF 1000000000).

Definition stalling_env : Env :=
  mkEnv (fun _ => mkAttempt 0 (inr stalling_file)) 0.

Definition w0 : World := mkWorld 0 0 [].

(** Two requests for the same path: the one that starts the fetch loses its
    connection two milliseconds in, the other one keeps waiting. *)
Definition steady_file : file_script :=
  ReadMore (repeat Byte.x00 1024) 1000000
    (ReadMore (repeat Byte.x00 1024) 1000000
       (ReadLast [] AtEOF 0)).

Definition steady_env : Env :=
  mkEnv (fun _ => mkAttempt 0 (inr steady_file)) 0.

Definition initiator : Request :=
  mkRequest "GET" "/seg1.m4s" (mkContext (Some (2000000, Canceled))).

Definition waiter : Request :=
  mkRequest "GET" "/seg1.m4s" Background.

(** A path that does not exist, a file shorter than the window of
    [h_example], and an empty cache of the default size. *)
Definition missing_env : Env :=
  mkEnv (fun _ => mkAttempt 0 (inl ErrNotExist)) 0.

Definition short_file : file_script :=
  ReadMore [Byte.x01; Byte.x02] 400000 (ReadLast [] AtEOF 100000).

Definition short_env : Env :=
  mkEnv (fun _ => mkAttempt 0 (inr short_file)) 0.

Definition mc0 : Cache.MemoryCache := Cache.NewMemoryCache 1073741824.

(** The bytes of a file, read after read, and how its last read ends. *)
Fixpoint script_bytes (f : file_script) : bytes :=
  match f with
  | ReadMore data _ rest => data ++ script_bytes rest
  | ReadLast data _ _ => data
  end.

Fixpoint script_end (f : file_script) : read_end :=
  match f with
  | ReadMore _ _ rest => script_end rest
  | ReadLast _ e _ => e
  end.

(** What reading a whole file gives when nothing interferes: its bytes, or
    the failure of its last read without any bytes. *)
Definition whole_read (f : file_script) : bytes * option error :=
  match script_end f with
  | AtEOF => (script_bytes f, None)
  | Failed e => ([], Some (PathError e))
  end.

(** The key under which [ServeHTTP] caches and coalesces a request, for a
    given [filepath.Join]. *)
Definition filePath (Join : string → string → string) (h : FileHandler)
    (r : Request) : string :=
  Join (baseDir h) (cleanPath r).

(** Joining by concatenation, which is what [filepath.Join] gives for a
    clean base directory and a clean rooted path. *)
Definition join_clean (dir path : string) : string := (dir ++ path)%string.

(** The elapsed time, since the start of the session, at which the read
    call begins whose judgment is the first to find the rate below the
    minimum; [None] when no judgment does. *)
Fixpoint slow_read_start (T : Duration) (m : float) (f : file_script)
    (b : Z) (el : Duration) : option Duration :=
  match f with
  | ReadMore data dur rest =>
      if too_slow T m (bump b data, el + Z.of_N dur) then Some el
      else slow_read_start T m rest (bump b data) (el + Z.of_N dur)
  | ReadLast data _ dur =>
      if too_slow T m (bump b data, el + Z.of_N dur) then Some el else None
  end.

(** The judgment claimed for every read call, whatever the context: past
    the window and below the minimum, the call returns its bytes with the
    too-slow error. *)
Definition Read_judges_every_call : Prop :=
  ∀ (r : HedgingReader) (o : read_outcome) (t : Time),
    let n := len64 (ro_data o) in
    let total := bump (bytesRead r) (ro_data o) in
    let elapsed := t + Z.of_N (ro_dur o) - startTime r in
    elapsed >= checkTime r →
    PrimFloat.ltb (speedMbps total elapsed) (minSpeed r) = true →
    fst (fst (Read r o t)) = (n, Some ErrTooSlow).

(** A context that is done five seconds in, well after the stalled read of
    [stalling_file] has begun. *)
Definition late_cancel : Context := mkContext (Some (5000000000, Canceled)).

End HandlerSpec.

(** * Properties of the cache *)

Module CacheProps.

Import Cache.

(** ** Arithmetic of [int64] *)

Lemma wrap64_id z : - 2 ^ 63 <= z < 2 ^ 63 → wrap64 z = z.
Proof.
  intros Hz. unfold wrap64.
  rewrite Z.mod_small by lia. lia.
Qed.

Lemma len64_nonneg d : 0 <= len64 d.
Proof. unfold len64. lia. Qed.

(** ** The recency list *)

Lemma Remove_perm e l : e ∈ l → l ≡ₚ e :: Remove e l.
Proof.
  induction l as [|x l IH]; intros He.
  - by apply elem_of_nil in He.
  - simpl. destruct (decide (x = e)) as [->|Hne]; [done|].
    apply elem_of_cons in He as [->|He]; [done|].
    rewrite (IH He) at 1. apply Permutation_swap.
Qed.

Lemma MoveToFront_perm e l : MoveToFront e l ≡ₚ l.
Proof.
  unfold MoveToFront. destruct (decide (e ∈ l)) as [He|]; [|done].
  symmetry. by apply Remove_perm.
Qed.

Lemma last_elem_of (l : list Element) e : last l = Some e → e ∈ l.
Proof.
  intros H. rewrite last_lookup in H. by eapply list_elem_of_lookup_2.
Qed.

Lemma Remove_last e l :
  NoDup l → last l = Some e → Remove e l = take (length l - 1) l.
Proof.
  induction l as [|x l IH]; intros Hnd Hlast; [done|].
  apply NoDup_cons in Hnd as [Hx Hnd].
  destruct l as [|y l].
  - simpl in *. injection Hlast as ->. by rewrite decide_True.
  - change (last (x :: y :: l)) with (last (y :: l)) in Hlast.
    assert (e ∈ y :: l) as He by (by apply last_elem_of).
    change (Remove e (x :: y :: l))
      with (if decide (x = e) then y :: l else x :: Remove e (y :: l)).
    rewrite decide_False by (intros ->; done).
    rewrite (IH Hnd Hlast). simpl. by rewrite Nat.sub_0_r.
Qed.


(** ** Sizes *)

Lemma sizes_total c : sizes c = total (size_at c) (ll c).
Proof.
  unfold sizes, entries. induction (ll c) as [|e l IH]; [done|].
  simpl. f_equal. exact IH.
Qed.

Lemma total_perm f l l' : l ≡ₚ l' → total f l = total f l'.
Proof. induction 1; simpl; lia. Qed.

Lemma total_ext f g l : (∀ e, e ∈ l → f e = g e) → total f l = total g l.
Proof.
  induction l as [|x l IH]; intros H; [done|]. simpl.
  rewrite (H x) by left. rewrite IH; [done|]. intros e He. apply H. by right.
Qed.

Lemma total_nonneg f l : (∀ e, 0 <= f e) → 0 <= total f l.
Proof. intros Hf. induction l as [|x l IH]; simpl; [lia|]. specialize (Hf x). lia. Qed.

Lemma total_elem f l e : (∀ x, 0 <= f x) → e ∈ l → f e <= total f l.
Proof.
  intros Hf He. rewrite (total_perm f _ _ (Remove_perm e l He)). simpl.
  pose proof (total_nonneg f (Remove e l) Hf). lia.
Qed.

Lemma size_at_nonneg c e : 0 <= size_at c e.
Proof. apply len64_nonneg. Qed.

(** ** History of a key *)

Lemma last_set_snoc accept ops o key :
  last_set accept (ops ++ [o]) key =
  match set_payload accept o key with
  | Some d => Some d
  | None => last_set accept ops key
  end.
Proof.
  induction ops as [|a ops IH]; simpl.
  - by destruct (set_payload accept o key).
  - rewrite IH. by destruct (set_payload accept o key).
Qed.

Lemma run_snoc B ops o : run B (ops ++ [o]) = step (run B ops) o.
Proof. unfold run. by rewrite fold_left_app. Qed.

(** ** The loop of [evict] *)

Lemma wf_new B ops : wf B ops (NewMemoryCache B).
Proof.
  split; simpl; try done.
  - apply NoDup_nil_2.
  - intros e He. by apply elem_of_nil in He.
  - intros k e. rewrite lookup_empty. split; [done|].
    intros [He _]. by apply elem_of_nil in He.
  - intros e He. by apply elem_of_nil in He.
  - intros e He. by apply elem_of_nil in He.
Qed.

Lemma evict_one_wf B ops c e :
  wf B ops c → sizes c < 2 ^ 63 → Back (ll c) = Some e →
  wf B ops (evict_one e c) ∧ sizes (evict_one e c) = sizes c - size_at c e.
Proof.
  intros [Hmax Hnd Hheap Hidx Hfresh Hused Hhist] Hlt Hback.
  assert (e ∈ ll c) as He by (by apply last_elem_of).
  pose proof (Remove_perm e (ll c) He) as Hperm.
  assert (sizes (evict_one e c) = sizes c - size_at c e) as Hsz.
  { rewrite !sizes_total. simpl.
    rewrite (total_perm _ _ _ Hperm). simpl.
    change (size_at (evict_one e c)) with (size_at c). lia. }
  assert (NoDup (e :: Remove e (ll c))) as Hnd' by (by rewrite <- Hperm).
  apply NoDup_cons in Hnd' as [Hnotin Hnd'].
  assert (∀ x, x ∈ Remove e (ll c) ↔ x ∈ ll c ∧ x ≠ e) as Hmem.
  { intros x. rewrite Hperm at 2. rewrite elem_of_cons. split.
    - intros Hx. split; [by right|]. by intros ->.
    - intros [[->|Hx] Hne]; done. }
  split; [|done]. split; simpl; try done.
  - intros x Hx. apply Hheap. by apply Hmem.
  - intros k x. change (Value (evict_one e c)) with (Value c).
    rewrite Hmem. destruct (decide (Key (Value c e) = k)) as [<-|Hk].
    + rewrite lookup_delete_eq. split; [done|].
      intros [[Hx Hne] Hkey]. exfalso. apply Hne.
      assert (cache c !! Key (Value c e) = Some x) as H1 by (by apply Hidx).
      assert (cache c !! Key (Value c e) = Some e) as H2 by (by apply Hidx).
      congruence.
    + rewrite lookup_delete_ne by done. rewrite Hidx. split.
      * intros [Hx Hkey]. split; [split; [done|]|done]. intros ->. done.
      * intros [[Hx _] Hkey]. done.
  - intros x Hx. apply Hfresh. by apply Hmem.
  - rewrite Hsz, Hused. apply wrap64_id.
    rewrite sizes_total.
    pose proof (total_elem (size_at c) (ll c) e (size_at_nonneg c) He).
    pose proof (size_at_nonneg c e). rewrite sizes_total in Hlt. lia.
  - intros x Hx. change (Value (evict_one e c)) with (Value c).
    apply Hhist. by apply Hmem.
Qed.

Lemma evict_loop_wf B ops fuel c :
  wf B ops c → sizes c < 2 ^ 63 →
  wf B ops (evict_loop fuel c) ∧ sizes (evict_loop fuel c) <= sizes c.
Proof.
  revert c. induction fuel as [|fuel IH]; intros c Hwf Hlt; simpl; [split; [done|lia]|].
  destruct ((usedBytes c >? maxBytes c) && (0 <? Z.of_nat (length (ll c))));
    [|split; [done|lia]].
  destruct (Back (ll c)) as [e|] eqn:Hback; [|by apply IH].
  destruct (evict_one_wf B ops c e Hwf Hlt Hback) as [Hwf' Hsz].
  pose proof (size_at_nonneg c e).
  destruct (IH (evict_one e c) Hwf') as [Hwf'' Hle]; [lia|].
  split; [done|lia].
Qed.

Lemma evict_loop_exit fuel c :
  (length (ll c) <= fuel)%nat →
  usedBytes (evict_loop fuel c) <= maxBytes (evict_loop fuel c)
  ∨ ll (evict_loop fuel c) = [].
Proof.
  revert c. induction fuel as [|fuel IH]; intros c Hlen; simpl.
  - right. destruct (ll c); [done|simpl in Hlen; lia].
  - destruct (usedBytes c >? maxBytes c) eqn:Hgt; simpl.
    2:{ left. rewrite Z.gtb_ltb, Z.ltb_ge in Hgt. lia. }
    destruct (0 <? Z.of_nat (length (ll c))) eqn:Hpos.
    2:{ right. rewrite Z.ltb_ge in Hpos. destruct (ll c); [done|simpl in Hpos; lia]. }
    destruct (Back (ll c)) as [e|] eqn:Hback.
    + apply IH. simpl.
      pose proof (Remove_perm e (ll c) (last_elem_of _ _ Hback)) as Hperm.
      apply Permutation_length in Hperm. simpl in Hperm. lia.
    + apply last_None in Hback. rewrite Hback in Hpos. done.
Qed.

(** ** [Get] and [Set] keep the invariant *)

Lemma Value_insert_eq c c' e it :
  heap c' = <[e := it]> (heap c) → Value c' e = it.
Proof. intros H. unfold Value. by rewrite H, lookup_insert_eq. Qed.

Lemma Value_insert_ne c c' e it x :
  heap c' = <[e := it]> (heap c) → x ≠ e → Value c' x = Value c x.
Proof. intros H Hne. unfold Value. by rewrite H, lookup_insert_ne. Qed.

Lemma Get_wf B ops key c :
  wf B ops c →
  wf B (ops ++ [OpGet key]) (snd (Get key c))
  ∧ usedBytes (snd (Get key c)) = usedBytes c.
Proof.
  intros [Hmax Hnd Hheap Hidx Hfresh Hused Hhist].
  assert (matches_last_set (fits B) (ops ++ [OpGet key]) c) as Hhist'.
  { intros e He. rewrite last_set_snoc. simpl. by apply Hhist. }
  unfold Get. destruct (cache c !! key) as [elem|] eqn:Hk; simpl; [|by split].
  split; [|done].
  pose proof (MoveToFront_perm elem (ll c)) as Hperm.
  set (c1 := mkCache _ _ _ _ _ _).
  assert (ll c1 ≡ₚ ll c) as Hll by done.
  split; try done.
  - by rewrite Hll.
  - intros e. rewrite Hll. apply Hheap.
  - intros k e. change (Value c1) with (Value c). rewrite Hll. apply Hidx.
  - intros e. rewrite Hll. apply Hfresh.
  - change (usedBytes c1) with (usedBytes c).
    rewrite Hused, !sizes_total. symmetry.
    change (size_at c1) with (size_at c). by apply total_perm.
  - intros e. change (Value c1) with (Value c). rewrite Hll. apply Hhist'.
Qed.

Lemma Set_hit_wf B ops key data c elem :
  wf B ops c → usedBytes c <= B → B < 2 ^ 62 → len64 data <= B →
  cache c !! key = Some elem →
  let c1 := mkCache (maxBytes c)
              (wrap64 (wrap64 (usedBytes c - len64 (Data (Value c elem))) + len64 data))
              (MoveToFront elem (ll c)) (cache c)
              (<[elem := mkItem (Key (Value c elem)) data]> (heap c)) (next c) in
  wf B (ops ++ [OpSet key data]) c1 ∧ sizes c1 <= 2 * B.
Proof.
  intros [Hmax Hnd Hheap Hidx Hfresh Hused Hhist] Hle HB Hfit Hk c1.
  pose proof (proj1 (Hidx key elem) Hk) as [Helem Hkey].
  pose proof (MoveToFront_perm elem (ll c)) as Hperm.
  assert (heap c1 = <[elem := mkItem (Key (Value c elem)) data]> (heap c)) as Hh by done.
  pose proof (Value_insert_eq c c1 elem _ Hh) as Hv1.
  pose proof (fun x => Value_insert_ne c c1 elem _ x Hh) as Hv2.
  assert (∀ e, Key (Value c1 e) = Key (Value c e)) as Hkeys.
  { intros e. destruct (decide (e = elem)) as [->|Hne]; [by rewrite Hv1|by rewrite Hv2]. }
  pose proof (size_at_nonneg c elem) as Hold0. unfold size_at in Hold0.
  pose proof (len64_nonneg data) as Hnew0.
  assert (len64 (Data (Value c elem)) <= sizes c) as Hold.
  { rewrite sizes_total. apply (total_elem (size_at c)); [apply size_at_nonneg|done]. }
  assert (sizes c1 = sizes c - len64 (Data (Value c elem)) + len64 data) as Hsz.
  { rewrite !sizes_total.
    change (ll c1) with (MoveToFront elem (ll c)).
    rewrite (total_perm _ _ _ Hperm).
    pose proof (Remove_perm elem (ll c) Helem) as Hrm.
    rewrite !(total_perm _ _ _ Hrm). simpl.
    assert (NoDup (elem :: Remove elem (ll c))) as Hnd' by (by rewrite <- Hrm).
    apply NoDup_cons in Hnd' as [Hnotin _].
    rewrite (total_ext (size_at c1) (size_at c) (Remove elem (ll c))).
    2:{ intros e He. unfold size_at. rewrite Hv2; [done|]. by intros ->. }
    unfold size_at at 1 3. rewrite Hv1. simpl. lia. }
  split; [|lia].
  split; try done.
  - change (ll c1) with (MoveToFront elem (ll c)). by rewrite Hperm.
  - intros e He. change (ll c1) with (MoveToFront elem (ll c)) in He.
    rewrite Hperm in He. rewrite Hh.
    destruct (decide (e = elem)) as [->|Hne].
    + rewrite lookup_insert_eq. by eexists.
    + rewrite lookup_insert_ne by done. by apply Hheap.
  - intros k e. change (ll c1) with (MoveToFront elem (ll c)).
    change (cache c1) with (cache c). rewrite Hperm, Hkeys. apply Hidx.
  - intros e He. change (ll c1) with (MoveToFront elem (ll c)) in He.
    rewrite Hperm in He. by apply Hfresh.
  - rewrite Hsz. change (usedBytes c1) with
      (wrap64 (wrap64 (usedBytes c - len64 (Data (Value c elem))) + len64 data)).
    rewrite Hused in *. rewrite (wrap64_id (sizes c - _)) by lia.
    apply wrap64_id. lia.
  - intros e He. change (ll c1) with (MoveToFront elem (ll c)) in He.
    rewrite Hperm in He. rewrite last_set_snoc, Hkeys. simpl.
    destruct (decide (e = elem)) as [->|Hne].
    + rewrite Hkey, bool_decide_eq_true_2 by done. rewrite Hv1. simpl.
      unfold fits. by rewrite (proj2 (Z.leb_le _ _) Hfit).
    + rewrite Hv2 by done.
      rewrite bool_decide_eq_false_2; [by apply Hhist|].
      intros Heq. apply Hne.
      assert (cache c !! key = Some e) as H1 by (by apply Hidx).
      congruence.
Qed.

Lemma Set_miss_wf B ops key data c :
  wf B ops c → usedBytes c <= B → B < 2 ^ 62 → len64 data <= B →
  cache c !! key = None →
  let c1 := mkCache (maxBytes c) (wrap64 (usedBytes c + len64 data))
              (next c :: ll c) (<[key := next c]> (cache c))
              (<[next c := mkItem key data]> (heap c)) (S (next c)) in
  wf B (ops ++ [OpSet key data]) c1 ∧ sizes c1 <= 2 * B.
Proof.
  intros [Hmax Hnd Hheap Hidx Hfresh Hused Hhist] Hle HB Hfit Hk c1.
  assert (heap c1 = <[next c := mkItem key data]> (heap c)) as Hh by done.
  pose proof (Value_insert_eq c c1 (next c) _ Hh) as Hv1.
  pose proof (fun x => Value_insert_ne c c1 (next c) _ x Hh) as Hv2.
  assert (next c ∉ ll c) as Hnew.
  { intros Hin. apply Hfresh in Hin. lia. }
  assert (∀ e, e ∈ ll c → Value c1 e = Value c e) as Hold.
  { intros e He. apply Hv2. by intros ->. }
  pose proof (len64_nonneg data) as Hnew0.
  assert (0 <= sizes c) as Hs0.
  { rewrite sizes_total. apply total_nonneg, size_at_nonneg. }
  assert (sizes c1 = sizes c + len64 data) as Hsz.
  { rewrite !sizes_total. change (ll c1) with (next c :: ll c). simpl.
    rewrite (total_ext (size_at c1) (size_at c) (ll c)).
    2:{ intros e He. unfold size_at. by rewrite Hold. }
    unfold size_at at 1. rewrite Hv1. simpl. lia. }
  split; [|lia].
  split; try done.
  - change (ll c1) with (next c :: ll c). by apply NoDup_cons.
  - intros e He. change (ll c1) with (next c :: ll c) in He. rewrite Hh.
    apply elem_of_cons in He as [->|He].
    + rewrite lookup_insert_eq. by eexists.
    + rewrite lookup_insert_ne by (by intros <-). by apply Hheap.
  - intros k e. change (ll c1) with (next c :: ll c).
    change (cache c1) with (<[key := next c]> (cache c)).
    rewrite elem_of_cons. destruct (decide (key = k)) as [<-|Hne].
    + rewrite lookup_insert_eq. split.
      * intros [= <-]. split; [by left|]. by rewrite Hv1.
      * intros [[->|He] Hkey]; [done|]. exfalso.
        rewrite Hold in Hkey by done.
        assert (cache c !! key = Some e) as H1 by (by apply Hidx).
        congruence.
    + rewrite lookup_insert_ne by done. rewrite Hidx. split.
      * intros [He Hkey]. split; [by right|]. by rewrite Hold.
      * intros [[->|He] Hkey].
        -- rewrite Hv1 in Hkey. simpl in Hkey. done.
        -- rewrite Hold in Hkey by done. done.
  - intros e He. change (ll c1) with (next c :: ll c) in He.
    change (next c1) with (S (next c)).
    apply elem_of_cons in He as [->|He]; [lia|]. apply Hfresh in He. lia.
  - rewrite Hsz. change (usedBytes c1) with (wrap64 (usedBytes c + len64 data)).
    rewrite Hused in *. apply wrap64_id. lia.
  - intros e He. change (ll c1) with (next c :: ll c) in He.
    rewrite last_set_snoc. simpl.
    apply elem_of_cons in He as [->|He].
    + rewrite Hv1. simpl. rewrite bool_decide_eq_true_2 by done.
      unfold fits. by rewrite (proj2 (Z.leb_le _ _) Hfit).
    + rewrite Hold by done.
      rewrite bool_decide_eq_false_2; [by apply Hhist|].
      intros Heq.
      assert (cache c !! key = Some e) as H1 by (by apply Hidx).
      congruence.
Qed.

Lemma evict_bounded B ops c :
  0 <= B → wf B ops c → sizes c < 2 ^ 63 →
  wf B ops (evict c) ∧ usedBytes (evict c) <= B.
Proof.
  intros HB Hwf Hlt. unfold evict.
  destruct (evict_loop_wf B ops (length (ll c)) c Hwf Hlt) as [Hwf' _].
  split; [done|].
  destruct (evict_loop_exit (length (ll c)) c) as [Hle|Hnil]; [lia| |].
  - by rewrite (wf_max _ _ _ Hwf') in Hle.
  - rewrite (wf_used _ _ _ Hwf'), sizes_total, Hnil. simpl. lia.
Qed.

Lemma Set_wf B ops key data c :
  0 <= B → B < 2 ^ 62 → wf B ops c → usedBytes c <= B →
  wf B (ops ++ [OpSet key data]) (Set_ key data c)
  ∧ usedBytes (Set_ key data c) <= B.
Proof.
  intros HB0 HB Hwf Hle. unfold Set_.
  pose proof (wf_max _ _ _ Hwf) as Hmax.
  destruct (len64 data >? maxBytes c) eqn:Hbig; rewrite Hmax in Hbig.
  - split; [|done]. destruct Hwf as [_ Hnd Hheap Hidx Hfresh Hused Hhist].
    split; try done.
    intros e He. rewrite last_set_snoc. simpl.
    unfold fits. rewrite Z.gtb_ltb, Z.ltb_lt in Hbig.
    rewrite (proj2 (Z.leb_gt _ _)) by lia.
    rewrite andb_false_r. by apply Hhist.
  - rewrite Z.gtb_ltb, Z.ltb_ge in Hbig.
    destruct (cache c !! key) as [elem|] eqn:Hk.
    + destruct (Set_hit_wf B ops key data c elem Hwf Hle HB Hbig Hk) as [Hwf1 Hsz].
      apply evict_bounded; [done|exact Hwf1|lia].
    + destruct (Set_miss_wf B ops key data c Hwf Hle HB Hbig Hk) as [Hwf1 Hsz].
      apply evict_bounded; [done|exact Hwf1|lia].
Qed.

Lemma run_wf B ops :
  0 <= B → B < 2 ^ 62 →
  wf B ops (run B ops) ∧ usedBytes (run B ops) <= B.
Proof.
  intros HB0 HB. induction ops as [|o ops IH] using rev_ind.
  - split; [apply wf_new|]. simpl. lia.
  - destruct IH as [Hwf Hle]. rewrite run_snoc. destruct o as [key|key data]; simpl.
    + destruct (Get_wf B ops key (run B ops) Hwf) as [Hwf' Hused].
      split; [done|lia].
    + by apply Set_wf.
Qed.

(** ** Eviction takes from the back *)

Lemma evict_loop_take fuel c :
  NoDup (ll c) → ∃ n, ll (evict_loop fuel c) = take n (ll c).
Proof.
  revert c. induction fuel as [|fuel IH]; intros c Hnd; simpl.
  - exists (length (ll c)). by rewrite firstn_all.
  - destruct ((usedBytes c >? maxBytes c) && (0 <? Z.of_nat (length (ll c)))).
    2:{ exists (length (ll c)). by rewrite firstn_all. }
    destruct (Back (ll c)) as [e|] eqn:Hback; [|by apply IH].
    assert (ll (evict_one e c) = take (length (ll c) - 1) (ll c)) as Hll.
    { simpl. by apply Remove_last. }
    destruct (IH (evict_one e c)) as [n Hn].
    + rewrite Hll. apply (sublist_NoDup _ (ll c)); [done|apply sublist_take].
    + exists (n `min` (length (ll c) - 1))%nat.
      by rewrite Hn, Hll, take_take.
Qed.

(** ** The claims on the cache *)

(** C7: a [Set] whose payload is larger than the budget returns at once,
    without an error, and leaves the whole cache state as it was: index,
    recency order, stored items and used bytes are those of the cache before
    the call. *)
Theorem Set_oversize_noop (key : string) (data : bytes) (c : MemoryCache) :
  len64 data > maxBytes c → Set_ key data c = c.
Proof.
  intros Hbig. unfold Set_.
  destruct (len64 data >? maxBytes c) eqn:Hcmp; [reflexivity|].
  rewrite Z.gtb_ltb, Z.ltb_ge in Hcmp. lia.
Qed.

Lemma Set_oversize_noop_witness :
  let c := run 2 [OpSet "a" [Byte.x01]] in
  Set_ "a" [Byte.x01; Byte.x02; Byte.x03] c = c.
Proof.
  apply (Set_oversize_noop "a" [Byte.x01; Byte.x02; Byte.x03]).
  vm_compute. reflexivity.
Defined.

(** C5, as amended: for a budget [0 <= B < 2^62] (the range in which the
    [int64] accounting cannot overflow) and every sequence of [Get] and [Set],
    after each operation the used bytes are the sum of the sizes of the
    retained entries, they do not exceed [B], index and recency order hold
    the same entries, and every retained entry has the payload of the most
    recent [Set] of its key whose payload fitted the budget. *)
Theorem cache_invariant_holds (B : Z) (ops : list op) (n : nat) :
  0 <= B → B < 2 ^ 62 →
  cache_invariant (fits B) B (take n ops) (run B (take n ops)).
Proof.
  intros HB0 HB.
  destruct (run_wf B (take n ops) HB0 HB) as [Hwf Hle].
  destruct Hwf as [Hmax Hnd Hheap Hidx Hfresh Hused Hhist].
  split; [done|]. split; [done|]. split; [by split|done].
Qed.

Lemma cache_invariant_holds_witness :
  let ops := [OpSet "a" (repeat Byte.x00 6); OpSet "b" (repeat Byte.x00 6);
              OpGet "a"] in
  cache_invariant (fits 10) 10 (take 2 ops) (run 10 (take 2 ops)).
Proof.
  apply (cache_invariant_holds 10
           [OpSet "a" (repeat Byte.x00 6); OpSet "b" (repeat Byte.x00 6);
            OpGet "a"] 2); lia.
Defined.

(** C5, as claimed, fails twice.  With budget 10, after [Set a] of one byte
    and [Set a] of eleven bytes the entry for [a] still holds the one byte,
    not the payload of its most recent [Set]; and with the budget -1 the empty
    cache already uses more bytes (zero) than its budget. *)
Lemma cache_invariant_claimed_fails :
  let ops := [OpSet "a" [Byte.x01]; OpSet "a" (repeat Byte.x00 11)] in
  ¬ cache_invariant any_set 10 ops (run 10 ops)
  ∧ lookup_data (run 10 ops) "a" = Some [Byte.x01]
  ∧ ¬ cache_invariant any_set (-1) [] (run (-1) []).
Proof.
  split; [|split].
  - intros (_ & _ & _ & Hhist).
    assert (O ∈ ll (run 10 [OpSet "a" [Byte.x01]; OpSet "a" (repeat Byte.x00 11)]))
      as H0 by (vm_compute; left).
    apply Hhist in H0. vm_compute in H0. discriminate H0.
  - vm_compute. reflexivity.
  - intros (_ & Hle & _). vm_compute in Hle. by apply Hle.
Qed.

(** C6, as amended: on a cache reached by any sequence of operations, a [Get]
    that hits returns the payload and moves the entry to the front of the
    recency order, the others keeping their order; a [Set] leaves a prefix of
    the recency order headed by the entry just set, so what it evicts are
    the least recently used entries.  Inserting [A], [B], reading [A] and
    inserting [C] into a cache for two items evicts [B] and keeps [A].  In
    the scenario [A], [B], [C], read [A], [D], the insertion of [C] has
    already evicted [A], the read misses, and [D] evicts [B]: [D] and [C]
    remain. *)
Theorem lru_eviction_order (B : Z) (ops : list op) :
  0 <= B → B < 2 ^ 62 →
  let c := run B ops in
  (∀ key e, cache c !! key = Some e →
     fst (Get key c) = (Data (Value c e), true)
     ∧ ll (snd (Get key c)) = e :: Remove e (ll c))
  ∧ (∀ key data, len64 data <= B →
       ∃ n, ll (Set_ key data c) = take n (touched key c))
  ∧ entries (run 2 lru_scenario_two) = [mkItem "C" item1; mkItem "A" item1]
  ∧ fst (Get "A" (run 2 (take 3 lru_scenario))) = ([], false)
  ∧ entries (run 2 lru_scenario) = [mkItem "D" item1; mkItem "C" item1].
Proof.
  intros HB0 HB c.
  destruct (run_wf B ops HB0 HB) as [Hwf Hle]. fold c in Hwf, Hle.
  split; [|split; [|by vm_compute]].
  - intros key e Hk. unfold Get. rewrite Hk. simpl. split; [done|].
    unfold MoveToFront. rewrite decide_True; [done|].
    by apply (wf_index _ _ _ Hwf key e).
  - intros key data Hfit. unfold Set_, touched.
    rewrite (wf_max _ _ _ Hwf).
    rewrite Z.gtb_ltb, (proj2 (Z.ltb_ge _ _)) by lia.
    destruct (cache c !! key) as [e|] eqn:Hk.
    + destruct (Set_hit_wf B ops key data c e Hwf Hle HB Hfit Hk) as [Hwf1 _].
      destruct (evict_loop_take (length (MoveToFront e (ll c)))
                  (mkCache B
                     (wrap64 (wrap64 (usedBytes c - len64 (Data (Value c e))) + len64 data))
                     (MoveToFront e (ll c)) (cache c)
                     (<[e := mkItem (Key (Value c e)) data]> (heap c)) (next c)))
        as [n Hn].
      { simpl. rewrite MoveToFront_perm. apply (wf_nodup _ _ _ Hwf). }
      exists n. unfold evict. simpl. simpl in Hn. rewrite Hn.
      unfold MoveToFront. rewrite decide_True; [done|].
      by apply (wf_index _ _ _ Hwf key e).
    + destruct (evict_loop_take (S (length (ll c)))
                  (mkCache B (wrap64 (usedBytes c + len64 data))
                     (next c :: ll c) (<[key := next c]> (cache c))
                     (<[next c := mkItem key data]> (heap c)) (S (next c))))
        as [n Hn].
      { simpl. apply NoDup_cons. split; [|apply (wf_nodup _ _ _ Hwf)].
        intros Hin. apply (wf_fresh _ _ _ Hwf) in Hin. lia. }
      exists n. unfold evict. simpl. simpl in Hn. by rewrite Hn.
Qed.

Lemma lru_eviction_order_witness :
  let c := run 2 lru_scenario_two in
  ∃ n, ll (Set_ "D" item1 c) = take n (touched "D" c).
Proof.
  apply (lru_eviction_order 2 lru_scenario_two); [lia|lia|].
  vm_compute. discriminate.
Defined.

(** C6, as claimed, fails on its scenario: after [A], [B], [C], read [A],
    [D] with room for two items, [A] is not in the cache (its read was a
    miss), although [B] is indeed gone. *)
Lemma lru_scenario_claimed_fails :
  ¬ lru_scenario_claimed
  ∧ lookup_data (run 2 lru_scenario) "A" = None
  ∧ lookup_data (run 2 lru_scenario) "B" = None.
Proof.
  split; [|split; by vm_compute].
  intros [_ HA]. vm_compute in HA. discriminate HA.
Qed.

(** The end-to-end example of the design document: budget 10, two payloads
    of six bytes. *)
Example end_to_end :
  let c := run 10 [OpSet "a" (repeat Byte.x00 6); OpSet "b" (repeat Byte.x00 6)] in
  lookup_data c "a" = None
  ∧ lookup_data c "b" = Some (repeat Byte.x00 6)
  ∧ usedBytes c = 6
  ∧ fst (Get "a" c) = ([], false).
Proof. by vm_compute. Qed.

End CacheProps.

(** * Properties of the reader and the handler *)

Module HandlerProps.

Import Reader Handler HandlerSpec.

(** ** One call of [Read] *)

Lemma ctx_Err_context c t err :
  ctx_Err c t = Some err → ∃ e, err = ContextError e.
Proof.
  unfold ctx_Err. destruct (done_from c) as [[t0 e]|]; [|done].
  destruct (t0 <=? t); [|done]. intros [= <-]. by exists e.
Qed.

Lemma end_error_not_too_slow e : end_error e ≠ ErrTooSlow.
Proof. by destruct e. Qed.

(** A call that passes the context check reads the file, counts the bytes
    and judges the cumulative average. *)
Lemma Read_unfold r o t :
  ctx_Err (ctx r) t = None →
  Read r o t =
  ((len64 (ro_data o),
    if too_slow (checkTime r) (minSpeed r)
         (bump (bytesRead r) (ro_data o), t + Z.of_N (ro_dur o) - startTime r)
    then Some ErrTooSlow else ro_err o),
   mkReader (ctx r) (startTime r) (bump (bytesRead r) (ro_data o))
            (checkTime r) (minSpeed r),
   t + Z.of_N (ro_dur o)).
Proof.
  intros Hctx. unfold Read, too_slow, bump. rewrite Hctx.
  destruct r as [c st b T m]. simpl.
  destruct (0 <? len64 (ro_data o)); simpl;
    destruct (_ && _); reflexivity.
Qed.

Lemma Read_cancelled r o t err :
  ctx_Err (ctx r) t = Some err → Read r o t = ((0, Some err), r, t).
Proof. intros Hctx. unfold Read. by rewrite Hctx. Qed.

(** ** The loop of [doRead] *)

Lemma read_loop_eq c rd f buf w :
  read_loop c rd f buf w =
  match ctx_Err c (now w) with
  | Some err => (([], Some err), w)
  | None =>
      let o := next_read f in
      let '((n, readErr), rd', w') := reader_Read rd o w in
      let buf' := if 0 <? n then buf ++ take (Z.to_nat n) (ro_data o) else buf in
      match readErr with
      | Some err =>
          if errors_Is err EOF then ((buf', None), w') else (([], Some err), w')
      | None =>
          match f with
          | ReadMore _ _ rest => read_loop c rd' rest buf' w'
          | ReadLast _ _ _ => ((buf', None), w')
          end
      end
  end.
Proof. destruct f; reflexivity. Qed.

Lemma loop_post_nil P w res : loop_post P w (res, w).
Proof. exists []. simpl. rewrite app_nil_r. repeat split; [done|lia]. Qed.

Lemma loop_post_step P w w1 out ev :
  log w1 = log w ++ [ev] → P ev → opened w1 = opened w → now w <= now w1 →
  loop_post P w1 out → loop_post P w out.
Proof.
  intros Hlog Hev Hop Hnow (evs & Hl & Hall & Ho & Hn).
  exists (ev :: evs). rewrite Hl, Hlog, <- app_assoc. simpl.
  repeat split; [by constructor|congruence|lia].
Qed.

Lemma loop_post_one P w res w1 ev :
  log w1 = log w ++ [ev] → P ev → opened w1 = opened w → now w <= now w1 →
  loop_post P w (res, w1).
Proof.
  intros Hlog Hev Hop Hnow. eapply loop_post_step; eauto. apply loop_post_nil.
Qed.

Lemma loop_post_weaken (P Q : event → Prop) w out :
  (∀ ev, P ev → Q ev) → loop_post P w out → loop_post Q w out.
Proof.
  intros HPQ (evs & Hl & Hall & Ho & Hn). exists evs.
  repeat split; try done. eapply Forall_impl; eauto.
Qed.

Lemma quiet_is_read ev : quiet_read ev → is_read ev.
Proof. by destruct ev. Qed.

(** Read directly from the file, the loop never meets [ErrTooSlow]. *)
Lemma unguarded_quiet c f buf w :
  loop_post quiet_read w (read_loop c None f buf w)
  ∧ snd (fst (read_loop c None f buf w)) ≠ Some ErrTooSlow.
Proof.
  revert buf w. induction f as [data dur rest IH|data e dur]; intros buf w;
    rewrite read_loop_eq;
    (destruct (ctx_Err c (now w)) as [err|] eqn:Hctx;
      [apply ctx_Err_context in Hctx as [ce ->];
       split; [apply loop_post_nil|done]|]);
    cbn [reader_Read next_read ro_data ro_err ro_dur fst snd].
  - set (w1 := emit _ _).
    destruct (IH (if 0 <? len64 data
                  then buf ++ take (Z.to_nat (len64 data)) data else buf) w1)
      as [Hpost Herr].
    split; [|done].
    eapply (loop_post_step _ w w1); [| | | |exact Hpost];
      unfold w1; simpl; try done; try lia.
  - set (w1 := emit _ _).
    destruct e as [|e]; simpl; split; try done;
      eapply loop_post_one; unfold w1; simpl; try done; try lia.
Qed.

(** One pass of the loop through the gated reader. *)
Lemma guarded_step r o w :
  ctx_Err (ctx r) (now w) = None →
  reader_Read (Some r) o w =
  let p := (bump (bytesRead r) (ro_data o),
            now w + Z.of_N (ro_dur o) - startTime r) in
  let err := if too_slow (checkTime r) (minSpeed r) p
             then Some ErrTooSlow else ro_err o in
  ((len64 (ro_data o), err),
   Some (mkReader (ctx r) (startTime r) (fst p) (checkTime r) (minSpeed r)),
   emit (EvRead (len64 (ro_data o)) err)
        (mkWorld (now w + Z.of_N (ro_dur o)) (opened w) (log w))).
Proof.
  intros Hctx. unfold reader_Read. by rewrite (Read_unfold _ _ _ Hctx).
Qed.

Lemma guarded_step_cancelled r o w err :
  ctx_Err (ctx r) (now w) = Some err →
  reader_Read (Some r) o w =
  ((0, Some err), Some r,
   emit (EvRead 0 (Some err)) (mkWorld (now w) (opened w) (log w))).
Proof.
  intros Hctx. unfold reader_Read. by rewrite (Read_cancelled _ _ _ _ Hctx).
Qed.

(** The last read of a file always comes back with an error, so the loop of
    [doRead] ends there. *)
Lemma last_read_reports rd data e dur w :
  snd (fst (fst (reader_Read rd (next_read (ReadLast data e dur)) w))) ≠ None.
Proof.
  destruct rd as [r|]; [|done].
  destruct (ctx_Err (ctx r) (now w)) as [err|] eqn:Hr.
  - by rewrite (guarded_step_cancelled _ _ _ _ Hr).
  - rewrite (guarded_step _ _ _ Hr). cbv zeta. simpl.
    by destruct (too_slow _ _ _).
Qed.

(** Through the gated reader, the loop meets [ErrTooSlow] at no read as long
    as no judgment finds the cumulative average below the minimum. *)
Lemma guarded_quiet c r f buf w :
  Forall (fun p => too_slow (checkTime r) (minSpeed r) p = false)
         (checkpoints f (bytesRead r) (now w - startTime r)) →
  loop_post quiet_read w (read_loop c (Some r) f buf w)
  ∧ snd (fst (read_loop c (Some r) f buf w)) ≠ Some ErrTooSlow.
Proof.
  revert r buf w. induction f as [data dur rest IH|data e dur];
    intros r buf w Hok; rewrite read_loop_eq; cbv zeta;
    (destruct (ctx_Err c (now w)) as [err|] eqn:Hctx;
      [apply ctx_Err_context in Hctx as [ce ->];
       split; [apply loop_post_nil|done]|]);
    (destruct (ctx_Err (ctx r) (now w)) as [err|] eqn:Hr;
      [rewrite (guarded_step_cancelled _ _ _ _ Hr);
       apply ctx_Err_context in Hr as [ce ->]; simpl;
       split; [|done]; eapply loop_post_one; simpl; try done; lia|]);
    rewrite (guarded_step _ _ _ Hr); cbv zeta;
    cbn [next_read ro_data ro_err ro_dur fst snd];
    simpl in Hok; apply Forall_cons in Hok as [Hhd Htl];
    replace (now w - startTime r + Z.of_N dur)
      with (now w + Z.of_N dur - startTime r) in * by lia;
    rewrite Hhd.
  - set (r1 := mkReader _ _ _ _ _). set (w1 := emit _ _).
    destruct (IH r1 (if 0 <? len64 data
                     then buf ++ take (Z.to_nat (len64 data)) data else buf) w1)
      as [Hpost Herr]; [exact Htl|].
    split; [|done].
    eapply (loop_post_step _ w w1); [| | | |exact Hpost];
      unfold w1; simpl; try done; try lia.
  - set (w1 := emit _ _).
    destruct e as [|e]; simpl; split; try done;
      eapply loop_post_one; unfold w1; simpl; try done; try lia.
Qed.

(** Whatever the judgments, the loop only logs reads. *)
Lemma read_loop_reads c rd f buf w :
  loop_post is_read w (read_loop c rd f buf w).
Proof.
  destruct rd as [r|].
  2:{ eapply loop_post_weaken; [apply quiet_is_read|apply unguarded_quiet]. }
  revert r buf w. induction f as [data dur rest IH|data e dur];
    intros r buf w; rewrite read_loop_eq; cbv zeta;
    (destruct (ctx_Err c (now w)) as [err|] eqn:Hctx;
      [apply loop_post_nil|]);
    (destruct (ctx_Err (ctx r) (now w)) as [err|] eqn:Hr;
      [rewrite (guarded_step_cancelled _ _ _ _ Hr);
       apply ctx_Err_context in Hr as [ce ->]; simpl;
       eapply loop_post_one; simpl; try done; lia|]);
    rewrite (guarded_step _ _ _ Hr); cbv zeta;
    cbn [next_read ro_data ro_err ro_dur fst snd];
    destruct (too_slow _ _ _); simpl;
    try (eapply loop_post_one; simpl; try done; lia).
  - set (r1 := mkReader _ _ _ _ _). set (w1 := emit _ _).
    eapply (loop_post_step _ w w1); [| | | |apply IH];
      unfold w1; simpl; try done; try lia.
  - destruct e as [|e]; simpl;
      eapply loop_post_one; simpl; try done; lia.
Qed.

(** Through the gated reader with a context that is never done, the loop
    ends with [ErrTooSlow] as soon as one judgment finds the cumulative
    average below the minimum, and the bytes read so far are dropped. *)
Lemma guarded_trips r f buf w :
  ctx r = Background →
  Exists (fun p => too_slow (checkTime r) (minSpeed r) p = true)
         (checkpoints f (bytesRead r) (now w - startTime r)) →
  fst (read_loop Background (Some r) f buf w) = ([], Some ErrTooSlow).
Proof.
  revert r buf w. induction f as [data dur rest IH|data e dur];
    intros r buf w Hbg Hex; rewrite read_loop_eq; cbv zeta;
    change (ctx_Err Background (now w)) with (@None error);
    (rewrite guarded_step by (by rewrite Hbg)); cbv zeta;
    cbn [next_read ro_data ro_err ro_dur fst snd];
    simpl in Hex; apply Exists_cons in Hex;
    replace (now w - startTime r + Z.of_N dur)
      with (now w + Z.of_N dur - startTime r) in * by lia.
  - destruct (too_slow _ _ _) eqn:Hslow; [done|].
    destruct Hex as [Hex|Hex]; [congruence|].
    set (r1 := mkReader _ _ _ _ _). set (w1 := emit _ _).
    apply (IH r1 _ w1); [done|exact Hex].
  - destruct Hex as [Hex|Hex]; [|by apply Exists_nil in Hex].
    by rewrite Hex.
Qed.

(** ** Events *)

Lemma new_events_app w w' evs :
  log w' = log w ++ evs → new_events w w' = evs.
Proof. intros H. unfold new_events. rewrite H. apply drop_app_length. Qed.

Lemma opens_of_app l l' : opens_of (l ++ l') = opens_of l ++ opens_of l'.
Proof.
  induction l as [|ev l IH]; [done|]. destruct ev; simpl; by rewrite IH.
Qed.

Lemma sleeps_of_app l l' : sleeps_of (l ++ l') = sleeps_of l ++ sleeps_of l'.
Proof.
  induction l as [|ev l IH]; [done|]. destruct ev; simpl; by rewrite IH.
Qed.

Lemma reads_no_open evs : Forall is_read evs → opens_of evs = [] ∧ sleeps_of evs = [].
Proof.
  induction 1 as [|ev evs Hev _ IH]; [done|]. by destruct ev.
Qed.

Lemma quiet_no_abort evs : Forall quiet_read evs → existsb aborted_read evs = false.
Proof.
  induction 1 as [|ev evs Hev _ IH]; [done|]. simpl. rewrite IH.
  destruct ev as [| n [[]|] |]; simpl in *; done.
Qed.

(** ** One attempt *)

Lemma script_duration_nonneg f : 0 <= script_duration f.
Proof. induction f; simpl; lia. Qed.

(** No judgment is made, hence none fails, before the window has elapsed. *)
Lemma checkpoints_before T m f b el :
  el + script_duration f < T →
  Forall (fun p => too_slow T m p = false) (checkpoints f b el).
Proof.
  revert b el. induction f as [data dur rest IH|data e dur]; intros b el Hlt;
    simpl in *.
  - pose proof (script_duration_nonneg rest).
    constructor; [|apply IH; lia].
    unfold too_slow. simpl. rewrite Z.geb_leb, (proj2 (Z.leb_gt _ _)) by lia. done.
  - constructor; [|constructor].
    unfold too_slow. simpl. rewrite Z.geb_leb, (proj2 (Z.leb_gt _ _)) by lia. done.
Qed.

Lemma doRead_eq h env c g w :
  doRead h env c g w =
  let a := attempts env (opened w) in
  let w1 := mkWorld (now w + Z.of_N (open_dur a)) (S (opened w))
                    (log w ++ [EvOpen g (now w)]) in
  match open_result a with
  | inl err => (([], Some (PathError err)), w1)
  | inr file =>
      read_loop c
        (if g then Some (NewHedgingReader c (now w1) (h_checkTime h) (h_minSpeed h))
         else None) file [] w1
  end.
Proof. reflexivity. Qed.

Lemma attempt_post_of_loop (P : event → Prop) g w t out :
  0 <= t →
  loop_post P (mkWorld (now w + t) (S (opened w)) (log w ++ [EvOpen g (now w)])) out →
  attempt_post P g w out.
Proof.
  intros Ht (evs & Hl & Hall & Ho & Hn). simpl in *.
  exists evs. rewrite Hl, <- app_assoc. repeat split; try done. lia.
Qed.

Lemma doRead_reads h env c g w : attempt_post is_read g w (doRead h env c g w).
Proof.
  rewrite doRead_eq. cbv zeta.
  destruct (open_result (attempts env (opened w))) as [err|file].
  - eapply attempt_post_of_loop; [|apply loop_post_nil]. lia.
  - eapply attempt_post_of_loop; [|apply read_loop_reads]. lia.
Qed.

Lemma doRead_unguarded_quiet h env c w :
  attempt_post quiet_read false w (doRead h env c false w)
  ∧ snd (fst (doRead h env c false w)) ≠ Some ErrTooSlow.
Proof.
  rewrite doRead_eq. cbv zeta.
  destruct (open_result (attempts env (opened w))) as [err|file].
  - split; [|done]. eapply attempt_post_of_loop; [|apply loop_post_nil]. lia.
  - match goal with |- context [read_loop c None file [] ?w1] =>
      destruct (unguarded_quiet c file [] w1) as [Hpost Herr] end.
    split; [|done]. eapply attempt_post_of_loop; [|exact Hpost]. lia.
Qed.

Lemma doRead_guarded_quiet h env c w :
  (∀ file, open_result (attempts env (opened w)) = inr file → rate_ok h file) →
  attempt_post quiet_read true w (doRead h env c true w)
  ∧ snd (fst (doRead h env c true w)) ≠ Some ErrTooSlow.
Proof.
  intros Hok. rewrite doRead_eq. cbv zeta.
  destruct (open_result (attempts env (opened w))) as [err|file].
  - split; [|done]. eapply attempt_post_of_loop; [|apply loop_post_nil]. lia.
  - match goal with |- context [read_loop c (Some ?r) file [] ?w1] =>
      destruct (guarded_quiet c r file [] w1) as [Hpost Herr] end.
    { simpl. rewrite Z.sub_diag. by apply Hok. }
    split; [|done]. eapply attempt_post_of_loop; [|exact Hpost]. lia.
Qed.

Lemma doRead_guarded_trips h env w file :
  open_result (attempts env (opened w)) = inr file → rate_fails h file →
  fst (doRead h env Background true w) = ([], Some ErrTooSlow).
Proof.
  intros Hopen Hex. rewrite doRead_eq. cbv zeta. rewrite Hopen.
  apply guarded_trips; [done|]. simpl. by rewrite Z.sub_diag.
Qed.

Lemma doRead_open_fails h env c g w e :
  open_result (attempts env (opened w)) = inl e →
  fst (doRead h env c g w) = ([], Some (PathError e))
  ∧ log (snd (doRead h env c g w)) = log w ++ [EvOpen g (now w)].
Proof. intros Hopen. rewrite doRead_eq. cbv zeta. by rewrite Hopen. Qed.

(** ** The two attempts of [readHedged] *)

Lemma readHedged_eq h env c w :
  readHedged h env c w =
  match snd (fst (doRead h env c true w)) with
  | None => doRead h env c true w
  | Some e =>
      if errors_Is e ErrTooSlow
      then doRead h env c false (Sleep env (hedgedDelay h) (snd (doRead h env c true w)))
      else (([], Some e), snd (doRead h env c true w))
  end.
Proof.
  unfold readHedged. destruct (doRead h env c true w) as [[data [e|]] w1]; done.
Qed.

Lemma errors_Is_true e e' : errors_Is e e' = true ↔ e = e'.
Proof. unfold errors_Is. apply bool_decide_eq_true. Qed.

Lemma readHedged_first_only h env c w :
  snd (fst (doRead h env c true w)) ≠ Some ErrTooSlow →
  snd (readHedged h env c w) = snd (doRead h env c true w)
  ∧ snd (fst (readHedged h env c w)) = snd (fst (doRead h env c true w))
  ∧ (snd (fst (doRead h env c true w)) = None →
     fst (readHedged h env c w) = fst (doRead h env c true w)).
Proof.
  intros Hne. rewrite readHedged_eq.
  destruct (snd (fst (doRead h env c true w))) as [e|] eqn:He; [|by rewrite He].
  destruct (errors_Is e ErrTooSlow) eqn:Hc.
  - apply errors_Is_true in Hc as ->. done.
  - simpl. done.
Qed.

Lemma readHedged_second h env c w :
  snd (fst (doRead h env c true w)) = Some ErrTooSlow →
  readHedged h env c w =
  doRead h env c false (Sleep env (hedgedDelay h) (snd (doRead h env c true w))).
Proof. intros He. rewrite readHedged_eq, He. done. Qed.

Lemma Sleep_pause env d w :
  now (Sleep env d w) - now w >= d
  ∧ log (Sleep env d w) = log w ++ [EvSleep (now w) d (now (Sleep env d w))]
  ∧ opened (Sleep env d w) = opened w.
Proof. unfold Sleep. simpl. repeat split; lia. Qed.

Lemma single_attempt_events h env c w :
  snd (fst (doRead h env c true w)) ≠ Some ErrTooSlow →
  ∃ evs1, new_events w (snd (readHedged h env c w)) = EvOpen true (now w) :: evs1
          ∧ Forall is_read evs1.
Proof.
  intros Hne. destruct (readHedged_first_only h env c w Hne) as (-> & _ & _).
  destruct (doRead_reads h env c true w) as (evs1 & Hl & Hall & _ & _).
  exists evs1. split; [|done]. by apply new_events_app.
Qed.

Lemma hedged_attempt_events h env c w :
  snd (fst (doRead h env c true w)) = Some ErrTooSlow →
  let w1 := snd (doRead h env c true w) in
  let w2 := Sleep env (hedgedDelay h) w1 in
  ∃ evs1 evs2,
    new_events w (snd (readHedged h env c w)) =
      EvOpen true (now w) :: evs1
      ++ EvSleep (now w1) (hedgedDelay h) (now w2) :: EvOpen false (now w2) :: evs2
    ∧ Forall is_read evs1 ∧ Forall is_read evs2.
Proof.
  intros He w1 w2. rewrite (readHedged_second h env c w He). fold w1. fold w2.
  destruct (doRead_reads h env c true w) as (evs1 & Hl1 & Hall1 & _ & _).
  destruct (doRead_reads h env c false w2) as (evs2 & Hl2 & Hall2 & _ & _).
  destruct (Sleep_pause env (hedgedDelay h) w1) as (_ & Hl & _).
  exists evs1, evs2. split; [|done]. apply new_events_app.
  rewrite Hl2. fold w2 in Hl. rewrite Hl. fold w1 in Hl1. rewrite Hl1.
  rewrite <- !app_assoc. done.
Qed.

(** ** Contexts that are done later *)

Lemma ctx_Err_mono c t t' err :
  ctx_Err c t = Some err → t <= t' → ctx_Err c t' = Some err.
Proof.
  unfold ctx_Err. destruct (done_from c) as [[t0 e]|]; [|done].
  destruct (t0 <=? t) eqn:Ht; [|done]. intros Herr Hle.
  apply Z.leb_le in Ht. by rewrite (proj2 (Z.leb_le t0 t')) by lia.
Qed.

Lemma ctx_Err_none_before c t t' :
  ctx_Err c t' = None → t <= t' → ctx_Err c t = None.
Proof.
  intros Hnone Hle. destruct (ctx_Err c t) as [err|] eqn:Herr; [|done].
  rewrite (ctx_Err_mono c t t' err Herr Hle) in Hnone. done.
Qed.

Lemma slow_read_start_ge T m f b el s :
  slow_read_start T m f b el = Some s → el <= s.
Proof.
  revert b el. induction f as [data dur rest IH|data e dur]; intros b el; simpl;
    destruct (too_slow _ _ _); try (intros [= <-]; lia); try done.
  intros Hs. apply IH in Hs. lia.
Qed.

Lemma slow_start_of_fails T m f b el :
  Exists (fun p => too_slow T m p = true) (checkpoints f b el) →
  is_Some (slow_read_start T m f b el).
Proof.
  revert b el. induction f as [data dur rest IH|data e dur]; intros b el Hex;
    simpl in *; apply Exists_cons in Hex;
    destruct (too_slow _ _ _) eqn:Hslow; try (by eexists).
  - destruct Hex as [Hex|Hex]; [congruence|]. by apply IH.
  - destruct Hex as [Hex|Hex]; [congruence|]. by apply Exists_nil in Hex.
Qed.

(** Every call of the reader is logged with what it returned. *)
Lemma reader_Read_log rd o w :
  log (snd (reader_Read rd o w))
  = log w ++ [EvRead (fst (fst (fst (reader_Read rd o w))))
                     (snd (fst (fst (reader_Read rd o w))))].
Proof.
  destruct rd as [r|]; [|done]. unfold reader_Read.
  by destruct (Read r o (now w)) as [[res r'] t].
Qed.

(** Whatever the context, a read call that returns the too-slow error ends
    the loop with that error and without bytes. *)
Lemma abort_event c rd f buf w :
  ∃ evs, log (snd (read_loop c rd f buf w)) = log w ++ evs
         ∧ (existsb aborted_read evs = true →
            fst (read_loop c rd f buf w) = ([], Some ErrTooSlow)).
Proof.
  revert rd buf w. induction f as [data dur rest IH|data e dur];
    intros rd buf w; rewrite read_loop_eq; cbv zeta;
    (destruct (ctx_Err c (now w)) as [err|];
      [exists []; by rewrite app_nil_r|]).
  - pose proof (reader_Read_log rd (next_read (ReadMore data dur rest)) w) as Hlog.
    destruct (reader_Read rd _ w) as [[[n [err|]] rd'] w1]; simpl in Hlog.
    + exists [EvRead n (Some err)]. destruct err; simpl; done.
    + destruct (IH rd' (if 0 <? n
                        then buf ++ take (Z.to_nat n) data else buf) w1)
        as (evs & Hl & Habort).
      exists (EvRead n None :: evs). simpl ro_data. rewrite Hl, Hlog, <- app_assoc.
      split; [done|]. simpl. exact Habort.
  - pose proof (reader_Read_log rd (next_read (ReadLast data e dur)) w) as Hlog.
    destruct (reader_Read rd _ w) as [[[n [err|]] rd'] w1]; simpl in Hlog.
    + exists [EvRead n (Some err)]. destruct err; simpl; done.
    + exists [EvRead n None]. simpl. done.
Qed.

Lemma doRead_abort_event h env c g w :
  existsb aborted_read (new_events w (snd (doRead h env c g w))) = true →
  fst (doRead h env c g w) = ([], Some ErrTooSlow).
Proof.
  rewrite doRead_eq. cbv zeta.
  destruct (open_result (attempts env (opened w))) as [err|file].
  - simpl. rewrite (new_events_app w _ [EvOpen g (now w)]) by done. done.
  - match goal with |- context [read_loop c ?rd file [] ?w1] =>
      destruct (abort_event c rd file [] w1) as (evs & Hl & Habort) end.
    cbn [log] in Hl. rewrite <- app_assoc in Hl.
    rewrite (new_events_app w _ _ Hl). simpl. exact Habort.
Qed.

(** Through the gated reader, the loop ends with the too-slow error at the
    first read whose judgment finds the rate below the minimum, provided the
    context is not done when that read call begins. *)
Lemma guarded_trips_at c r f buf w s :
  ctx r = c →
  slow_read_start (checkTime r) (minSpeed r) f (bytesRead r) (now w - startTime r)
    = Some s →
  ctx_Err c (startTime r + s) = None →
  fst (read_loop c (Some r) f buf w) = ([], Some ErrTooSlow)
  ∧ ∃ evs, log (snd (read_loop c (Some r) f buf w)) = log w ++ evs
           ∧ existsb aborted_read evs = true.
Proof.
  revert r buf w. induction f as [data dur rest IH|data e dur];
    intros r buf w Hc Hs Hctx;
    pose proof (slow_read_start_ge _ _ _ _ _ _ Hs) as Hge;
    assert (ctx_Err c (now w) = None) as Hnow
      by (apply (ctx_Err_none_before c _ _ Hctx); lia);
    rewrite read_loop_eq; cbv zeta; rewrite Hnow;
    (rewrite guarded_step by (by rewrite Hc)); cbv zeta;
    cbn [next_read ro_data ro_err ro_dur fst snd];
    simpl in Hs;
    replace (now w - startTime r + Z.of_N dur)
      with (now w + Z.of_N dur - startTime r) in * by lia;
    destruct (too_slow _ _ _) eqn:Hslow.
  - simpl. split; [done|]. by exists [EvRead (len64 data) (Some ErrTooSlow)].
  - set (r1 := mkReader _ _ _ _ _). set (w1 := emit _ _).
    destruct (IH r1 (if 0 <? len64 data
                     then buf ++ take (Z.to_nat (len64 data)) data else buf) w1)
      as (Hres & evs & Hl & Hab); [done|exact Hs|exact Hctx|].
    split; [done|]. exists (EvRead (len64 data) None :: evs).
    rewrite Hl. unfold w1. simpl. rewrite <- app_assoc. done.
  - simpl. split; [done|]. by exists [EvRead (len64 data) (Some ErrTooSlow)].
  - done.
Qed.

Lemma doRead_trips_at h env c w file s :
  open_result (attempts env (opened w)) = inr file →
  slow_read_start (h_checkTime h) (h_minSpeed h) file 0 0 = Some s →
  ctx_Err c (now w + Z.of_N (open_dur (attempts env (opened w))) + s) = None →
  fst (doRead h env c true w) = ([], Some ErrTooSlow)
  ∧ existsb aborted_read (new_events w (snd (doRead h env c true w))) = true.
Proof.
  intros Hopen Hs Hctx. rewrite doRead_eq. cbv zeta. rewrite Hopen.
  match goal with |- context [read_loop c (Some ?r) file [] ?w1] =>
    destruct (guarded_trips_at c r file [] w1 s) as (Hres & evs & Hl & Hab) end;
    try done.
  { simpl. by rewrite Z.sub_diag. }
  split; [done|]. cbn [log] in Hl. rewrite <- app_assoc in Hl.
  by rewrite (new_events_app w _ _ Hl).
Qed.

(** ** [ServeHTTP], case by case *)

Lemma ServeHTTP_eq Join h env r inflight mc w :
  ServeHTTP Join h env r inflight mc w =
  if negb (bool_decide (Method r = "GET"%string)) then (MethodNotAllowed, mc, w)
  else if bool_decide (cleanPath r = "/"%string) then (Forbidden, mc, w)
  else
    match Cache.cache mc !! filePath Join h r with
    | Some e =>
        (Served (Cache.Data (Cache.Value mc e)),
         snd (Cache.Get (filePath Join h r) mc), w)
    | None =>
        let out := sfGroup_Do inflight (fun w0 => readHedged h env (req_ctx r) w0) w in
        match snd (fst out) with
        | Some e =>
            if os_IsNotExist e then (NotFound, mc, snd out)
            else (InternalServerError, mc, snd out)
        | None =>
            (Served (fst (fst out)),
             Cache.Set_ (filePath Join h r) (fst (fst out)) mc, snd out)
        end
    end.
Proof.
  unfold ServeHTTP, filePath, Cache.Get.
  destruct (negb _); [done|]. destruct (bool_decide (cleanPath r = _)); [done|].
  destruct (Cache.cache mc !! _); [done|].
  destruct (sfGroup_Do _ _ _) as [[val [e|]] w']; simpl; [|done].
  by destruct (os_IsNotExist e).
Qed.

Lemma float64_of_nonneg x :
  0 <= x → float64_of_int64 x = PrimFloat.of_uint63 (Uint63.of_Z x).
Proof.
  intros Hx. unfold float64_of_int64.
  rewrite (proj2 (Z.eqb_neq _ _)) by lia.
  by rewrite (proj2 (Z.ltb_ge _ _)) by lia.
Qed.

(** ** The claims on the reader and the handler *)

(** C3: a fetch opens the file with the gated reader first.  Unless that
    attempt ends with the too-slow error, its outcome is the outcome of the
    fetch and nothing else is opened.  When it ends with the too-slow error,
    the fetch sleeps for at least the hedge delay, then opens the file once
    more without the gate, and the outcome of that attempt, bytes or error,
    is the outcome of the fetch.  There are never more than two opens, and
    exactly one when no judgment of the gated attempt finds the rate below
    the minimum. *)
Theorem readHedged_attempts (h : FileHandler) (env : Env) (c : Context) (w : World) :
  let out1 := doRead h env c true w in
  let w2 := Sleep env (hedgedDelay h) (snd out1) in
  let out := readHedged h env c w in
  let evs := new_events w (snd out) in
  (snd (fst out1) ≠ Some ErrTooSlow →
     snd (fst out) = snd (fst out1)
     ∧ (snd (fst out1) = None → fst (fst out) = fst (fst out1))
     ∧ opens_of evs = [(true, now w)]
     ∧ sleeps_of evs = [])
  ∧ (snd (fst out1) = Some ErrTooSlow →
     out = doRead h env c false w2
     ∧ now w2 - now (snd out1) >= hedgedDelay h
     ∧ ∃ evs1 evs2,
         evs = EvOpen true (now w) :: evs1
               ++ EvSleep (now (snd out1)) (hedgedDelay h) (now w2)
                  :: EvOpen false (now w2) :: evs2
         ∧ Forall is_read evs1 ∧ Forall is_read evs2)
  ∧ (length (opens_of evs) <= 2)%nat
  ∧ ((∀ file, open_result (attempts env (opened w)) = inr file → rate_ok h file) →
     opens_of evs = [(true, now w)]).
Proof.
  intros out1 w2 out evs.
  assert (snd (fst out1) ≠ Some ErrTooSlow →
          opens_of evs = [(true, now w)] ∧ sleeps_of evs = []) as Hone.
  { intros Hne. destruct (single_attempt_events h env c w Hne) as (evs1 & Hev & Hall).
    unfold evs, out. rewrite Hev. simpl.
    destruct (reads_no_open evs1 Hall) as [-> ->]. done. }
  assert (snd (fst out1) = Some ErrTooSlow →
          ∃ evs1 evs2,
            evs = EvOpen true (now w) :: evs1
                  ++ EvSleep (now (snd out1)) (hedgedDelay h) (now w2)
                     :: EvOpen false (now w2) :: evs2
            ∧ Forall is_read evs1 ∧ Forall is_read evs2) as Htwo.
  { intros He. exact (hedged_attempt_events h env c w He). }
  split; [|split; [|split]].
  - intros Hne. destruct (readHedged_first_only h env c w Hne) as (_ & H2 & H3).
    destruct (Hone Hne) as [Ho Hs].
    split; [exact H2|]. split; [|done].
    intros Hnone. unfold out, out1. by rewrite (H3 Hnone).
  - intros He. split; [exact (readHedged_second h env c w He)|].
    split; [apply Sleep_pause|]. by apply Htwo.
  - destruct (decide (snd (fst out1) = Some ErrTooSlow)) as [He|Hne].
    + destruct (Htwo He) as (evs1 & evs2 & -> & Hall1 & Hall2).
      simpl. rewrite opens_of_app. simpl.
      destruct (reads_no_open evs1 Hall1) as [-> _].
      destruct (reads_no_open evs2 Hall2) as [-> _]. simpl. lia.
    + destruct (Hone Hne) as [-> _]. simpl. lia.
  - intros Hok. apply Hone. by apply doRead_guarded_quiet.
Qed.

Lemma readHedged_attempts_witness :
  let out := readHedged h_example stalling_env Background w0 in
  out = doRead h_example stalling_env Background false
          (Sleep stalling_env (hedgedDelay h_example)
             (snd (doRead h_example stalling_env Background true w0)))
  ∧ opens_of (new_events w0 (snd out)) = [(true, 0); (false, 1101000000)].
Proof.
  split.
  - apply (readHedged_attempts h_example stalling_env Background w0).
    vm_compute. reflexivity.
  - vm_compute. reflexivity.
Defined.

(** C4: a fetch never returns the too-slow error.  When its gated attempt
    ends with that error the fetch consumes it: it sleeps once, opens the
    file once more without the gate, and returns what that attempt returns.
    When the first [os.Open] fails the fetch returns that failure at once:
    nothing but that one open happens, no sleep and no second attempt. *)
Theorem readHedged_absorbs_too_slow (h : FileHandler) (env : Env) (c : Context)
    (w : World) :
  let out1 := doRead h env c true w in
  let w2 := Sleep env (hedgedDelay h) (snd out1) in
  let out := readHedged h env c w in
  let evs := new_events w (snd out) in
  snd (fst out) ≠ Some ErrTooSlow
  ∧ (snd (fst out1) = Some ErrTooSlow →
       out = doRead h env c false w2
       ∧ opens_of evs = [(true, now w); (false, now w2)]
       ∧ sleeps_of evs = [(now (snd out1), hedgedDelay h, now w2)])
  ∧ (∀ e, open_result (attempts env (opened w)) = inl e →
       fst out = ([], Some (PathError e))
       ∧ evs = [EvOpen true (now w)]).
Proof.
  intros out1 w2 out evs. split; [|split].
  - unfold out. rewrite readHedged_eq.
    destruct (snd (fst (doRead h env c true w))) as [e|] eqn:He; [|by rewrite He].
    destruct (errors_Is e ErrTooSlow) eqn:Hc.
    + apply doRead_unguarded_quiet.
    + simpl. intros [= ->]. by vm_compute in Hc.
  - intros Hslow. split; [exact (readHedged_second h env c w Hslow)|].
    destruct (hedged_attempt_events h env c w Hslow) as (evs1 & evs2 & Hev & H1 & H2).
    unfold evs, out. rewrite Hev. simpl.
    rewrite opens_of_app, sleeps_of_app. simpl.
    destruct (reads_no_open evs1 H1) as [-> ->].
    destruct (reads_no_open evs2 H2) as [-> ->]. done.
  - intros e Hopen.
    destruct (doRead_open_fails h env c true w e Hopen) as [Hres Hlog].
    unfold evs, out. rewrite readHedged_eq, Hres. simpl.
    split; [done|]. by apply new_events_app.
Qed.

Lemma readHedged_absorbs_too_slow_witness :
  (readHedged h_example stalling_env Background w0
   = doRead h_example stalling_env Background false
       (Sleep stalling_env (hedgedDelay h_example)
          (snd (doRead h_example stalling_env Background true w0)))
   ∧ opens_of (new_events w0 (snd (readHedged h_example stalling_env Background w0)))
     = [(true, 0); (false, 1101000000)]
   ∧ sleeps_of (new_events w0 (snd (readHedged h_example stalling_env Background w0)))
     = [(1001000000, 100000000, 1101000000)])
  ∧ (fst (readHedged h_example missing_env Background w0)
     = ([], Some (PathError ErrNotExist))
     ∧ new_events w0 (snd (readHedged h_example missing_env Background w0))
       = [EvOpen true 0]).
Proof.
  split.
  - apply (readHedged_absorbs_too_slow h_example stalling_env Background w0).
    by vm_compute.
  - apply (readHedged_absorbs_too_slow h_example missing_env Background w0).
    reflexivity.
Defined.

(** C8, as amended: a call of [Read] whose context is not done when it is
    entered reads the file and counts its bytes; when the time elapsed since
    the start of the session is then at least the window, it judges the
    speed in Mbps, [(bytes * 8) / (1024 * 1024 * seconds)] in [float64] on
    the cumulative byte count and the elapsed seconds (whole seconds plus
    nanoseconds over 1e9); below the minimum it returns the number of bytes
    of this call with the too-slow error, otherwise what the file returned.
    A call whose context is done returns the context's error at once,
    without reading and without judging. *)
Theorem Read_judges_rate (r : HedgingReader) (o : read_outcome) (t : Time) :
  let n := len64 (ro_data o) in
  let total := bump (bytesRead r) (ro_data o) in
  let elapsed := t + Z.of_N (ro_dur o) - startTime r in
  (ctx_Err (ctx r) t = None → elapsed >= checkTime r →
     (PrimFloat.ltb (speedMbps total elapsed) (minSpeed r) = true →
        fst (fst (Read r o t)) = (n, Some ErrTooSlow))
     ∧ (PrimFloat.ltb (speedMbps total elapsed) (minSpeed r) = false →
        fst (fst (Read r o t)) = (n, ro_err o))
     ∧ bytesRead (snd (fst (Read r o t))) = total)
  ∧ (∀ err, ctx_Err (ctx r) t = Some err → Read r o t = ((0, Some err), r, t))
  ∧ (0 <= bytesRead r → bytesRead r + n < 2 ^ 63 → total = bytesRead r + n)
  ∧ (0 <= total → 0 <= elapsed →
     speedMbps total elapsed
     = (PrimFloat.of_uint63 (Uint63.of_Z total) * 8
        / (1048576
           * (PrimFloat.of_uint63 (Uint63.of_Z (elapsed / 1000000000)%Z)
              + PrimFloat.of_uint63 (Uint63.of_Z (elapsed mod 1000000000)%Z)
                / 1000000000)))%float)
  ∧ speedMbps 655360 Second = 5%float
  ∧ speedMbps 1048576 (2 * Second) = 4%float
  ∧ speedMbps 1024 Millisecond = 7.8125%float
  ∧ speedMbps 983040 (Second + 500 * Millisecond) = 5%float
  ∧ speedMbps 3 (3 * Second / 2) = 1.52587890625e-05%float.
Proof.
  intros n total elapsed.
  split; [|split; [|split; [|split; [|repeat split; by vm_compute]]]].
  - intros Hctx Hel. rewrite (Read_unfold r o t Hctx). unfold too_slow. simpl.
    fold total. fold elapsed.
    rewrite (proj2 (Z.geb_le _ _)) by lia. simpl.
    split; [by intros ->|]. split; [by intros ->|done].
  - intros err Hctx. by apply Read_cancelled.
  - intros Hb Hsum. unfold total, bump. fold n.
    pose proof (CacheProps.len64_nonneg (ro_data o)) as Hn. fold n in Hn.
    destruct (0 <? n) eqn:Hpos.
    + apply CacheProps.wrap64_id. lia.
    + rewrite Z.ltb_ge in Hpos. lia.
  - intros Htot Hel. unfold speedMbps, Seconds, Second.
    rewrite Z.quot_div_nonneg, Z.rem_mod_nonneg by lia.
    rewrite !float64_of_nonneg; [done| |apply Z.div_pos; lia|done].
    apply Z.mod_pos_bound. lia.
Qed.

Lemma Read_judges_rate_witness :
  fst (fst (Read (mkReader Background 0 1024 Millisecond 5)
                 (mkOutcome [Byte.x01] (Some EOF) 1000000000) 1000000))
  = (1, Some ErrTooSlow).
Proof.
  apply (Read_judges_rate (mkReader Background 0 1024 Millisecond 5)
           (mkOutcome [Byte.x01] (Some EOF) 1000000000) 1000000);
    [reflexivity|by vm_compute|by vm_compute].
Defined.

(** C8, as claimed for every read call, fails: a call entered with a context
    that is done returns no bytes and the context's error, although a second
    has elapsed since the start of the session, against a window of a
    millisecond, and 1025 bytes in a second are far below 5 Mbps. *)
Lemma Read_judges_every_call_fails :
  ¬ Read_judges_every_call
  ∧ fst (fst (Read (mkReader (mkContext (Some (0, Canceled))) 0 1024 Millisecond 5)
                   (mkOutcome [Byte.x01] (Some EOF) 0) 1000000000))
    = (0, Some (ContextError Canceled)).
Proof.
  split; [|by vm_compute].
  intros Hclaim.
  specialize (Hclaim (mkReader (mkContext (Some (0, Canceled))) 0 1024 Millisecond 5)
                (mkOutcome [Byte.x01] (Some EOF) 0) 1000000000).
  cbv zeta in Hclaim.
  assert (fst (fst (Read (mkReader (mkContext (Some (0, Canceled))) 0 1024 Millisecond 5)
                      (mkOutcome [Byte.x01] (Some EOF) 0) 1000000000))
          = (1, Some ErrTooSlow)) as Hbad.
  { apply Hclaim; by vm_compute. }
  vm_compute in Hbad. discriminate Hbad.
Qed.

(** C9: when all the reads of the file, up to its end, take less than the
    measurement window, no read call of the gated attempt returns the
    too-slow error, and neither does the attempt. *)
Theorem short_source_never_aborts (h : FileHandler) (env : Env) (c : Context)
    (w : World) (file : file_script) :
  open_result (attempts env (opened w)) = inr file →
  script_duration file < h_checkTime h →
  existsb aborted_read (new_events w (snd (doRead h env c true w))) = false
  ∧ snd (fst (doRead h env c true w)) ≠ Some ErrTooSlow.
Proof.
  intros Hopen Hshort.
  destruct (doRead_guarded_quiet h env c w) as [(evs & Hl & Hall & _) Herr].
  { intros file' Hopen'. rewrite Hopen in Hopen'. injection Hopen' as <-.
    apply checkpoints_before. lia. }
  split; [|done].
  rewrite (new_events_app _ _ _ Hl). simpl. by apply quiet_no_abort.
Qed.

Lemma short_source_never_aborts_witness :
  existsb aborted_read
    (new_events w0 (snd (doRead h_example short_env Background true w0))) = false
  ∧ snd (fst (doRead h_example short_env Background true w0)) ≠ Some ErrTooSlow.
Proof.
  apply (short_source_never_aborts h_example short_env Background w0 short_file);
    [reflexivity|by vm_compute].
Defined.

(** C10: past the window and below the minimum, [Read] returns the too-slow
    error in place of whatever the file reported, end of data and I/O
    failures included.  Whatever the context, a gated attempt in which a
    read call returns the too-slow error returns that error without the
    bytes it has read, and the fetch sleeps and goes on to its second
    attempt.  This happens at the first read whose judgment finds the rate
    below the minimum, provided the context is not done when that read call
    begins; so it is for a file whose last read reaches the end of the data
    too late, under a context that is cancelled seconds afterwards. *)
Theorem too_slow_overrides_status (r : HedgingReader) (o : read_outcome) (t : Time)
    (h : FileHandler) (env : Env) (c : Context) (w : World) (file : file_script)
    (s : Duration) :
  let hedge := doRead h env c false
                 (Sleep env (hedgedDelay h) (snd (doRead h env c true w))) in
  (ctx_Err (ctx r) t = None →
   too_slow (checkTime r) (minSpeed r)
     (bump (bytesRead r) (ro_data o), t + Z.of_N (ro_dur o) - startTime r) = true →
   fst (fst (Read r o t)) = (len64 (ro_data o), Some ErrTooSlow))
  ∧ (existsb aborted_read (new_events w (snd (doRead h env c true w))) = true →
     fst (doRead h env c true w) = ([], Some ErrTooSlow)
     ∧ readHedged h env c w = hedge)
  ∧ (open_result (attempts env (opened w)) = inr file →
     slow_read_start (h_checkTime h) (h_minSpeed h) file 0 0 = Some s →
     ctx_Err c (now w + Z.of_N (open_dur (attempts env (opened w))) + s) = None →
     existsb aborted_read (new_events w (snd (doRead h env c true w))) = true
     ∧ fst (doRead h env c true w) = ([], Some ErrTooSlow)
     ∧ readHedged h env c w = hedge)
  ∧ (rate_fails h file →
     is_Some (slow_read_start (h_checkTime h) (h_minSpeed h) file 0 0))
  ∧ fst (doRead h_example stalling_env late_cancel true w0) = ([], Some ErrTooSlow)
  ∧ last (new_events w0 (snd (doRead h_example stalling_env late_cancel true w0)))
    = Some (EvRead 1 (Some ErrTooSlow)).
Proof.
  intros hedge.
  split; [|split; [|split; [|split; [|split; by vm_compute]]]].
  - intros Hctx Hslow. by rewrite (Read_unfold r o t Hctx), Hslow.
  - intros Hab. pose proof (doRead_abort_event h env c true w Hab) as Hres.
    split; [done|]. apply readHedged_second. by rewrite Hres.
  - intros Hopen Hs Hctx.
    destruct (doRead_trips_at h env c w file s Hopen Hs Hctx) as [Hres Hab].
    split; [done|]. split; [done|]. apply readHedged_second. by rewrite Hres.
  - apply slow_start_of_fails.
Qed.

Lemma too_slow_overrides_status_witness :
  existsb aborted_read
    (new_events w0 (snd (doRead h_example stalling_env late_cancel true w0))) = true
  ∧ fst (doRead h_example stalling_env late_cancel true w0) = ([], Some ErrTooSlow)
  ∧ readHedged h_example stalling_env late_cancel w0
    = doRead h_example stalling_env late_cancel false
        (Sleep stalling_env (hedgedDelay h_example)
           (snd (doRead h_example stalling_env late_cancel true w0))).
Proof.
  apply (too_slow_overrides_status (mkReader Background 0 1024 Millisecond 5)
           (mkOutcome [Byte.x01] (Some (PathError ErrIO)) 1000000000) 1000000
           h_example stalling_env late_cancel w0 stalling_file 1000000);
    [reflexivity|by vm_compute|reflexivity].
Defined.

(** C2, as amended: the judgment made at every read call past the window is
    on the cumulative average of the whole session so far.  Whatever the
    context, a gated attempt never returns the too-slow error at a read call
    as long as that average is not below the minimum at any read past the
    window, however long the reads take in total; and once the average is
    below the minimum at a read past the window, the attempt ends with the
    too-slow error at the first such read, for every context that is not
    done when that read call begins. *)
Theorem cumulative_rate_decides (h : FileHandler) (env : Env) (c : Context)
    (w : World) (file : file_script) :
  open_result (attempts env (opened w)) = inr file →
  (rate_ok h file →
     existsb aborted_read (new_events w (snd (doRead h env c true w))) = false
     ∧ snd (fst (doRead h env c true w)) ≠ Some ErrTooSlow)
  ∧ (rate_fails h file →
     is_Some (slow_read_start (h_checkTime h) (h_minSpeed h) file 0 0))
  ∧ (∀ s, slow_read_start (h_checkTime h) (h_minSpeed h) file 0 0 = Some s →
       ctx_Err c (now w + Z.of_N (open_dur (attempts env (opened w))) + s) = None →
       fst (doRead h env c true w) = ([], Some ErrTooSlow)).
Proof.
  intros Hopen. split; [|split].
  - intros Hok.
    destruct (doRead_guarded_quiet h env c w) as [(evs & Hl & Hall & _) Herr].
    { intros file' Hopen'. rewrite Hopen in Hopen'. by injection Hopen' as <-. }
    split; [|done].
    rewrite (new_events_app _ _ _ Hl). simpl. by apply quiet_no_abort.
  - apply slow_start_of_fails.
  - intros s Hs Hctx. by apply (doRead_trips_at h env c w file s).
Qed.

Lemma cumulative_rate_decides_witness :
  fst (doRead h_example stalling_env late_cancel true w0) = ([], Some ErrTooSlow).
Proof.
  apply (proj2 (proj2 (cumulative_rate_decides h_example stalling_env late_cancel
                         w0 stalling_file eq_refl)) 1000000); reflexivity.
Defined.

(** C2, as claimed, fails: the file of [stalling_env] delivers 1024 bytes
    within the window of one millisecond, 7.8 Mbps against a minimum of 5,
    and its next read, a second later, returns the too-slow error. *)
Lemma window_only_fails :
  fast_in_window h_example stalling_file
  ∧ ¬ window_only h_example stalling_env Background w0.
Proof.
  assert (fast_in_window h_example stalling_file) as Hfast.
  { exists (1024, 1000000). split; by vm_compute. }
  split; [done|]. intros Hclaim.
  specialize (Hclaim stalling_file eq_refl Hfast).
  vm_compute in Hclaim. discriminate Hclaim.
Qed.

(** C1: the fetch that [ServeHTTP] hands to [sfGroup.Do] reads with the
    context of the request that starts it.  When that request is cancelled
    two milliseconds into the read, the shared fetch ends with the
    cancellation error, the request that started it and a waiter whose own
    context is never done both answer with an internal server error (the
    waiter once the fetch has ended, without opening anything), and nothing
    is cached; the same read under a context that is never done returns the
    2048 bytes of the file. *)
Theorem fetch_follows_initiator (Join : string → string → string) :
  let flight := readHedged h_example steady_env (req_ctx initiator) w0 in
  fst flight = ([], Some (ContextError Canceled))
  ∧ fst (fst (ServeHTTP Join h_example steady_env initiator None mc0 w0))
    = InternalServerError
  ∧ ServeHTTP Join h_example steady_env waiter
      (Some (fst flight, now (snd flight))) mc0 w0
    = (InternalServerError, mc0, mkWorld (now (snd flight)) (opened w0) (log w0))
  ∧ fst (readHedged h_example steady_env Background w0)
    = (repeat Byte.x00 2048, None).
Proof.
  intros flight. split; [by vm_compute|]. split; [|split; [|by vm_compute]].
  - rewrite ServeHTTP_eq. simpl negb. cbv iota.
    rewrite bool_decide_eq_false_2 by done.
    unfold mc0 at 1. simpl Cache.cache. rewrite lookup_empty. by vm_compute.
  - rewrite ServeHTTP_eq. simpl negb. cbv iota.
    rewrite bool_decide_eq_false_2 by done.
    unfold mc0 at 1. simpl Cache.cache. rewrite lookup_empty. by vm_compute.
Qed.

End HandlerProps.

(** * Further properties of the cache *)

Module CacheExtra.

Import Cache CacheProps.

Lemma Set_eq key data c :
  Set_ key data c =
  if len64 data >? maxBytes c then c else evict (Set_pre key data c).
Proof.
  unfold Set_, Set_pre. destruct (len64 data >? maxBytes c); [done|].
  by destruct (cache c !! key).
Qed.

Lemma Set_pre_wf B ops key data c :
  wf B ops c → usedBytes c <= B → B < 2 ^ 62 → len64 data <= B →
  wf B (ops ++ [OpSet key data]) (Set_pre key data c)
  ∧ sizes (Set_pre key data c) <= 2 * B.
Proof.
  intros Hwf Hle HB Hfit. unfold Set_pre.
  destruct (cache c !! key) as [elem|] eqn:Hk.
  - exact (Set_hit_wf B ops key data c elem Hwf Hle HB Hfit Hk).
  - exact (Set_miss_wf B ops key data c Hwf Hle HB Hfit Hk).
Qed.

Lemma Set_pre_ll B ops key data c :
  wf B ops c → ll (Set_pre key data c) = touched key c.
Proof.
  intros Hwf. unfold Set_pre, touched.
  destruct (cache c !! key) as [elem|] eqn:Hk; [|done]. simpl.
  unfold MoveToFront. rewrite decide_True; [done|].
  by apply (wf_index _ _ _ Hwf key elem).
Qed.

(** The entry at the front of what [Set] hands to [evict] is the one just
    set. *)
Lemma Set_pre_head B ops key data c :
  wf B ops c →
  ∃ e rest, ll (Set_pre key data c) = e :: rest
            ∧ Value (Set_pre key data c) e = mkItem key data.
Proof.
  intros Hwf. rewrite (Set_pre_ll B ops) by done. unfold touched, Set_pre, Value.
  destruct (cache c !! key) as [elem|] eqn:Hk; simpl.
  - exists elem, (Remove elem (ll c)). split; [done|].
    rewrite lookup_insert_eq. simpl. f_equal.
    by apply (wf_index _ _ _ Hwf key elem).
  - exists (next c), (ll c). split; [done|]. by rewrite lookup_insert_eq.
Qed.

(** The loop of [evict] only unlinks list elements and deletes index
    entries. *)
Lemma evict_loop_frame fuel c :
  heap (evict_loop fuel c) = heap c
  ∧ maxBytes (evict_loop fuel c) = maxBytes c
  ∧ ∀ k e, cache (evict_loop fuel c) !! k = Some e → cache c !! k = Some e.
Proof.
  revert c. induction fuel as [|fuel IH]; intros c; simpl; [done|].
  destruct (_ && _); [|done].
  destruct (Back (ll c)) as [x|]; [|apply IH].
  destruct (IH (evict_one x c)) as (Hh & Hm & Hc).
  split; [done|]. split; [done|].
  intros k e Hke. apply Hc in Hke. simpl in Hke.
  apply lookup_delete_Some in Hke as [_ Hke]. done.
Qed.

(** An entry at the front that fits the budget on its own is never
    evicted. *)
Lemma evict_loop_keeps_head B ops fuel c e rest :
  wf B ops c → sizes c < 2 ^ 63 → ll c = e :: rest → size_at c e <= B →
  ∃ rest', ll (evict_loop fuel c) = e :: rest'.
Proof.
  revert c rest. induction fuel as [|fuel IH]; intros c rest Hwf Hlt Hll Hfit;
    simpl; [by exists rest|].
  destruct (usedBytes c >? maxBytes c) eqn:Hgt; simpl; [|by exists rest].
  destruct (0 <? Z.of_nat (length (ll c))); [|by exists rest].
  destruct (Back (ll c)) as [x|] eqn:Hback.
  2:{ apply last_None in Hback. congruence. }
  rewrite Z.gtb_ltb, Z.ltb_lt in Hgt.
  rewrite (wf_max _ _ _ Hwf), (wf_used _ _ _ Hwf), sizes_total, Hll in Hgt.
  destruct rest as [|y rest].
  { simpl in Hgt. lia. }
  assert (x ∈ y :: rest) as Hx.
  { apply last_elem_of. unfold Back in Hback. by rewrite Hll in Hback. }
  assert (e ≠ x) as Hne.
  { pose proof (wf_nodup _ _ _ Hwf) as Hnd. rewrite Hll in Hnd.
    apply NoDup_cons in Hnd as [Hnotin _]. by intros ->. }
  destruct (evict_one_wf B ops c x Hwf Hlt Hback) as [Hwf1 Hsz].
  pose proof (size_at_nonneg c x).
  apply (IH (evict_one x c) (Remove x (y :: rest))); try done; [lia|].
  simpl. rewrite Hll.
  change (Remove x (e :: y :: rest))
    with (if decide (e = x) then y :: rest else e :: Remove x (y :: rest)).
  by rewrite decide_False.
Qed.

Lemma Value_heap c c' e : heap c' = heap c → Value c' e = Value c e.
Proof. intros H. unfold Value. by rewrite H. Qed.

Lemma evict_Value c e : Value (evict c) e = Value c e.
Proof. apply Value_heap. unfold evict. apply evict_loop_frame. Qed.

Lemma gtb_false_of_le a b : a <= b → (a >? b) = false.
Proof. intros H. rewrite Z.gtb_ltb. apply Z.ltb_ge. lia. Qed.

(** What a [Set] that is not oversized does to a reachable cache: the
    updated cache goes through [evict], which keeps the invariant and the
    entry just set. *)
Lemma Set_reachable B ops key data :
  0 <= B → B < 2 ^ 62 → len64 data <= B →
  let c := run B ops in
  let c1 := Set_pre key data c in
  Set_ key data c = evict c1
  ∧ wf B (ops ++ [OpSet key data]) c1
  ∧ sizes c1 < 2 ^ 63
  ∧ wf B (ops ++ [OpSet key data]) (evict c1)
  ∧ ∃ e rest rest', ll c1 = e :: rest ∧ Value c1 e = mkItem key data
                    ∧ ll (evict c1) = e :: rest'.
Proof.
  intros HB0 HB Hfit c c1.
  destruct (run_wf B ops HB0 HB) as [Hwf Hle]. fold c in Hwf, Hle.
  destruct (Set_pre_wf B ops key data c Hwf Hle HB Hfit) as [Hwf1 Hsz].
  fold c1 in Hwf1, Hsz.
  assert (sizes c1 < 2 ^ 63) as Hlt by lia.
  split.
  { rewrite Set_eq, (wf_max _ _ _ Hwf). by rewrite gtb_false_of_le. }
  split; [done|]. split; [done|].
  split; [by apply evict_bounded|].
  destruct (Set_pre_head B ops key data c Hwf) as (e & rest & Hll & Hv).
  fold c1 in Hll, Hv.
  destruct (evict_loop_keeps_head _ _ (length (ll c1)) c1 e rest Hwf1 Hlt Hll)
    as [rest' Hll'].
  { unfold size_at. by rewrite Hv. }
  by exists e, rest, rest'.
Qed.

Lemma Set_too_big key data c :
  maxBytes c < len64 data → Set_ key data c = c.
Proof.
  intros Hbig. rewrite Set_eq.
  by rewrite (proj2 (Z.gtb_lt _ _)) by lia.
Qed.

(** ** Round trip *)

Lemma Set_indexes_payload B ops key data :
  0 <= B → B < 2 ^ 62 → len64 data <= B →
  ∃ e, cache (Set_ key data (run B ops)) !! key = Some e
       ∧ Data (Value (Set_ key data (run B ops)) e) = data.
Proof.
  intros HB0 HB Hfit.
  destruct (Set_reachable B ops key data HB0 HB Hfit)
    as (-> & _ & _ & Hwf & e & rest & rest' & Hll & Hv & Hll').
  set (c1 := Set_pre key data (run B ops)) in *.
  exists e. split; [|by rewrite evict_Value, Hv].
  apply (wf_index _ _ _ Hwf). rewrite Hll', evict_Value, Hv. split; [left|done].
Qed.

(** X1: on a cache reached by any operations, a payload that fits the
    budget is returned by the [Get] that follows its [Set]: the entry just
    set is never the one evicted. *)
Theorem Get_after_Set (B : Z) (ops : list op) (key : string) (data : bytes) :
  0 <= B → B < 2 ^ 62 → len64 data <= B →
  fst (Get key (Set_ key data (run B ops))) = (data, true).
Proof.
  intros HB0 HB Hfit.
  destruct (Set_indexes_payload B ops key data HB0 HB Hfit) as (e & Hk & Hd).
  unfold Get. rewrite Hk. simpl. by rewrite Hd.
Qed.

Lemma Get_after_Set_witness :
  fst (Get "b" (Set_ "b" (repeat Byte.x00 6)
                  (run 10 [OpSet "a" (repeat Byte.x00 6)])))
  = (repeat Byte.x00 6, true).
Proof.
  apply (Get_after_Set 10 [OpSet "a" (repeat Byte.x00 6)] "b" (repeat Byte.x00 6));
    [lia|lia|by vm_compute].
Defined.

(** ** What a [Set] does to the other entries *)

Lemma evict_id c : usedBytes c <= maxBytes c → evict c = c.
Proof.
  intros Hle. unfold evict. destruct (length (ll c)); simpl; [done|].
  by rewrite gtb_false_of_le.
Qed.

Lemma lookup_data_Some c k d :
  lookup_data c k = Some d ↔ ∃ e, cache c !! k = Some e ∧ Data (Value c e) = d.
Proof.
  unfold lookup_data. destruct (cache c !! k) as [e|]; simpl; split.
  - intros [= <-]. by exists e.
  - intros (e' & [= <-] & <-). done.
  - done.
  - by intros (e' & ? & _).
Qed.

Lemma Set_pre_lookup_other B ops key data c k :
  wf B ops c → k ≠ key →
  lookup_data (Set_pre key data c) k = lookup_data c k.
Proof.
  intros Hwf Hne. unfold lookup_data, Set_pre, Value.
  destruct (cache c !! key) as [elem|] eqn:Hk; simpl.
  - destruct (cache c !! k) as [e|] eqn:Hke; [|done]. simpl.
    rewrite lookup_insert_ne; [done|]. intros <-.
    apply (wf_index _ _ _ Hwf) in Hk as [_ Hk].
    apply (wf_index _ _ _ Hwf) in Hke as [_ Hke]. congruence.
  - rewrite lookup_insert_ne by done.
    destruct (cache c !! k) as [e|] eqn:Hke; [|done]. simpl.
    rewrite lookup_insert_ne; [done|]. intros <-.
    apply (wf_index _ _ _ Hwf) in Hke as [Hin _].
    apply (wf_fresh _ _ _ Hwf) in Hin. lia.
Qed.

Lemma stored_size_le_used B ops c key :
  wf B ops c → 0 <= stored_size c key <= usedBytes c.
Proof.
  intros Hwf. unfold stored_size, lookup_data.
  rewrite (wf_used _ _ _ Hwf), sizes_total.
  pose proof (total_nonneg (size_at c) (ll c) (size_at_nonneg c)).
  destruct (cache c !! key) as [e|] eqn:Hk; simpl; [|lia].
  apply (wf_index _ _ _ Hwf) in Hk as [Hin _].
  pose proof (total_elem (size_at c) (ll c) e (size_at_nonneg c) Hin).
  pose proof (size_at_nonneg c e). unfold size_at in *. lia.
Qed.

Lemma Set_pre_used B ops key data c :
  wf B ops c → usedBytes c <= B → B < 2 ^ 62 → len64 data <= B →
  usedBytes (Set_pre key data c) = usedBytes c - stored_size c key + len64 data.
Proof.
  intros Hwf Hle HB Hfit.
  pose proof (stored_size_le_used B ops c key Hwf) as Hst.
  pose proof (len64_nonneg data).
  unfold Set_pre, stored_size, lookup_data in *.
  destruct (cache c !! key) as [e|]; simpl in *.
  - rewrite (wrap64_id (usedBytes c - _)) by lia. apply wrap64_id. lia.
  - rewrite Z.sub_0_r. apply wrap64_id. lia.
Qed.

(** X2: when the payload fits next to what the cache already holds (the
    bytes in use, less those of the entry it replaces, plus its own size do
    not exceed the budget), [Set] evicts nothing: every other key keeps its
    payload, the recency order is the former one with the key moved or
    added to the front, and the used bytes are that sum. *)
Theorem Set_with_room_evicts_nothing (B : Z) (ops : list op) (key : string)
    (data : bytes) :
  0 <= B → B < 2 ^ 62 →
  let c := run B ops in
  usedBytes c - stored_size c key + len64 data <= B →
  ll (Set_ key data c) = touched key c
  ∧ usedBytes (Set_ key data c) = usedBytes c - stored_size c key + len64 data
  ∧ ∀ k, k ≠ key → lookup_data (Set_ key data c) k = lookup_data c k.
Proof.
  intros HB0 HB c Hroom.
  destruct (run_wf B ops HB0 HB) as [Hwf Hle]. fold c in Hwf, Hle.
  pose proof (stored_size_le_used B ops c key Hwf) as Hst.
  assert (len64 data <= B) as Hfit by lia.
  pose proof (Set_pre_used B ops key data c Hwf Hle HB Hfit) as Hused.
  destruct (Set_pre_wf B ops key data c Hwf Hle HB Hfit) as [Hwf1 _].
  rewrite Set_eq, (wf_max _ _ _ Hwf), gtb_false_of_le by done.
  rewrite evict_id by (rewrite (wf_max _ _ _ Hwf1); lia).
  split; [by apply (Set_pre_ll B ops)|]. split; [done|].
  intros k Hne. by apply (Set_pre_lookup_other B ops).
Qed.

Lemma Set_with_room_evicts_nothing_witness :
  let c := run 10 [OpSet "a" (repeat Byte.x00 6)] in
  ll (Set_ "b" (repeat Byte.x00 4) c) = touched "b" c
  ∧ usedBytes (Set_ "b" (repeat Byte.x00 4) c)
    = usedBytes c - stored_size c "b" + len64 (repeat Byte.x00 4)
  ∧ ∀ k, k ≠ "b"%string →
         lookup_data (Set_ "b" (repeat Byte.x00 4) c) k = lookup_data c k.
Proof.
  apply (Set_with_room_evicts_nothing 10 [OpSet "a" (repeat Byte.x00 6)] "b"
           (repeat Byte.x00 4)); [lia|lia|by vm_compute].
Defined.

(** X3: a [Set] never changes the payload of another key and never brings
    one back: afterwards every other key either is gone or has the payload
    it had. *)
Theorem Set_other_keys (B : Z) (ops : list op) (key k : string) (data : bytes) :
  0 <= B → B < 2 ^ 62 → k ≠ key →
  let c := run B ops in
  lookup_data (Set_ key data c) k = None
  ∨ lookup_data (Set_ key data c) k = lookup_data c k.
Proof.
  intros HB0 HB Hne c.
  destruct (run_wf B ops HB0 HB) as [Hwf Hle]. fold c in Hwf, Hle.
  rewrite Set_eq. destruct (len64 data >? maxBytes c); [by right|].
  rewrite <- (Set_pre_lookup_other B ops key data c k Hwf Hne).
  set (c1 := Set_pre key data c).
  destruct (evict_loop_frame (length (ll c1)) c1) as (Hh & _ & Hc).
  fold (evict c1) in Hh, Hc.
  unfold lookup_data at 1 2.
  destruct (cache (evict c1) !! k) as [e|] eqn:Hk; [right|by left].
  apply Hc in Hk. unfold lookup_data. rewrite Hk. simpl.
  by rewrite evict_Value.
Qed.

Lemma Set_other_keys_witness :
  let c := run 10 [OpSet "a" (repeat Byte.x00 6)] in
  lookup_data (Set_ "b" (repeat Byte.x00 6) c) "a" = None
  ∨ lookup_data (Set_ "b" (repeat Byte.x00 6) c) "a" = lookup_data c "a".
Proof.
  apply (Set_other_keys 10 [OpSet "a" (repeat Byte.x00 6)] "b" "a"
           (repeat Byte.x00 6)); [lia|lia|done].
Defined.

(** ** Eviction stops as soon as the budget is met *)

Lemma evict_loop_minimal B ops fuel c :
  wf B ops c → sizes c < 2 ^ 63 →
  ∃ n, ll (evict_loop fuel c) = take n (ll c)
       ∧ ((n < length (ll c))%nat →
          B < total (size_at c) (take (S n) (ll c))).
Proof.
  revert c. induction fuel as [|fuel IH]; intros c Hwf Hlt; simpl.
  { exists (length (ll c)). rewrite firstn_all. split; [done|lia]. }
  destruct (usedBytes c >? maxBytes c) eqn:Hgt; simpl.
  2:{ exists (length (ll c)). rewrite firstn_all. split; [done|lia]. }
  destruct (0 <? Z.of_nat (length (ll c))) eqn:Hpos.
  2:{ exists (length (ll c)). rewrite firstn_all. split; [done|lia]. }
  destruct (Back (ll c)) as [x|] eqn:Hback.
  2:{ apply last_None in Hback. rewrite Hback in Hpos. done. }
  rewrite Z.gtb_ltb, Z.ltb_lt in Hgt. rewrite Z.ltb_lt in Hpos.
  rewrite (wf_max _ _ _ Hwf), (wf_used _ _ _ Hwf), sizes_total in Hgt.
  destruct (evict_one_wf B ops c x Hwf Hlt Hback) as [Hwf1 Hsz].
  pose proof (size_at_nonneg c x).
  assert (ll (evict_one x c) = take (length (ll c) - 1) (ll c)) as Hll.
  { simpl. apply Remove_last; [apply (wf_nodup _ _ _ Hwf)|done]. }
  destruct (IH (evict_one x c) Hwf1) as (n1 & Hn1 & Hmin); [lia|].
  rewrite Hll in Hn1, Hmin. rewrite length_take in Hmin.
  change (size_at (evict_one x c)) with (size_at c) in Hmin.
  rewrite take_take in Hn1, Hmin.
  exists (n1 `min` (length (ll c) - 1))%nat. split; [done|]. intros _.
  destruct (decide (n1 < length (ll c) - 1)%nat) as [Hsmall|Hbig].
  - rewrite Nat.min_l by lia.
    rewrite (Nat.min_l (S n1)) in Hmin by lia. apply Hmin. lia.
  - rewrite Nat.min_r by lia.
    replace (S (length (ll c) - 1)) with (length (ll c)) by lia.
    by rewrite firstn_all.
Qed.

(** X4: a [Set] evicts no more than it must.  The entries it keeps are the
    most recently used ones, and when it evicts at all, the entries kept
    together with the most recently used of those evicted would exceed the
    budget. *)
Theorem Set_evicts_no_more_than_needed (B : Z) (ops : list op) (key : string)
    (data : bytes) :
  0 <= B → B < 2 ^ 62 → len64 data <= B →
  let c := run B ops in
  let c' := Set_ key data c in
  ∃ n, ll c' = take n (touched key c)
       ∧ ((n < length (touched key c))%nat →
          B < total (size_at c') (take (S n) (touched key c))).
Proof.
  intros HB0 HB Hfit c c'.
  destruct (run_wf B ops HB0 HB) as [Hwf Hle]. fold c in Hwf, Hle.
  destruct (Set_reachable B ops key data HB0 HB Hfit)
    as (Heq & Hwf1 & Hlt & _). fold c in Heq, Hwf1, Hlt.
  unfold c'. rewrite Heq.
  set (c1 := Set_pre key data c) in *.
  destruct (evict_loop_minimal _ _ (length (ll c1)) c1 Hwf1 Hlt) as (n & Hn & Hmin).
  fold (evict c1) in Hn.
  pose proof (Set_pre_ll B ops key data c Hwf) as Hpre. fold c1 in Hpre.
  rewrite Hpre in Hn, Hmin.
  exists n. split; [done|]. intros Hlen.
  rewrite (total_ext _ (size_at c1)); [by apply Hmin|].
  intros e _. unfold size_at. by rewrite evict_Value.
Qed.

Lemma Set_evicts_no_more_than_needed_witness :
  let c := run 10 [OpSet "a" (repeat Byte.x00 6)] in
  let c' := Set_ "b" (repeat Byte.x00 6) c in
  ∃ n, ll c' = take n (touched "b" c)
       ∧ ((n < length (touched "b" c))%nat →
          10 < total (size_at c') (take (S n) (touched "b" c))).
Proof.
  apply (Set_evicts_no_more_than_needed 10 [OpSet "a" (repeat Byte.x00 6)] "b"
           (repeat Byte.x00 6)); [lia|lia|by vm_compute].
Defined.

(** ** Edge cases *)

(** X5: with a negative budget every [Set] is oversized, so the cache stays
    as [NewMemoryCache] made it whatever is done to it, and every [Get]
    misses. *)
Theorem negative_budget_caches_nothing (B : Z) (ops : list op) (key : string) :
  B < 0 →
  run B ops = NewMemoryCache B
  ∧ fst (Get key (run B ops)) = ([], false).
Proof.
  intros HB.
  assert (run B ops = NewMemoryCache B) as Hrun.
  { induction ops as [|o ops IH] using rev_ind; [done|].
    rewrite run_snoc, IH. destruct o as [k|k d]; simpl; [done|].
    apply Set_too_big. simpl. pose proof (len64_nonneg d). lia. }
  rewrite Hrun. done.
Qed.

Lemma negative_budget_caches_nothing_witness :
  run (-1) [OpSet "a" []; OpGet "a"] = NewMemoryCache (-1)
  ∧ fst (Get "a" (run (-1) [OpSet "a" []; OpGet "a"])) = ([], false).
Proof.
  apply (negative_budget_caches_nothing (-1) [OpSet "a" []; OpGet "a"] "a"). lia.
Defined.

Lemma Get_frame key c :
  usedBytes (snd (Get key c)) = usedBytes c
  ∧ cache (snd (Get key c)) = cache c
  ∧ heap (snd (Get key c)) = heap c
  ∧ ll (snd (Get key c)) ≡ₚ ll c.
Proof.
  unfold Get. destruct (cache c !! key); simpl; [|done].
  repeat split; try done. apply MoveToFront_perm.
Qed.

Lemma Get_fst_frame key c c' :
  cache c' = cache c → heap c' = heap c → fst (Get key c') = fst (Get key c).
Proof.
  intros Hc Hh. unfold Get, Value. rewrite Hc, Hh.
  by destruct (cache c !! key).
Qed.

(** X6: reads do not disturb the cache.  After any number of [Get]s, of any
    keys, on any cache, every key looks up the payload it looked up before,
    a [Get] returns what it would have returned before, the used bytes are
    the same and the recency list holds the same elements. *)
Theorem Gets_read_only (c : MemoryCache) (gets : list op) (key : string) :
  Forall is_get gets →
  let c' := fold_left step gets c in
  lookup_data c' key = lookup_data c key
  ∧ fst (Get key c') = fst (Get key c)
  ∧ usedBytes c' = usedBytes c
  ∧ ll c' ≡ₚ ll c.
Proof.
  intros Hgets. revert c. induction Hgets as [|o gets Ho _ IH]; intros c; [done|].
  destruct o as [k|]; [|done]. simpl.
  destruct (IH (snd (Get k c))) as (H1 & H2 & H3 & H4).
  destruct (Get_frame k c) as (Hu & Hc & Hh & Hl).
  rewrite H1, H2, H3, H4.
  split; [|split; [|done]].
  - unfold lookup_data, Value. by rewrite Hc, Hh.
  - apply Get_fst_frame; done.
Qed.

Lemma Gets_read_only_witness :
  let c := run 10 [OpSet "a" [Byte.x01]; OpSet "b" [Byte.x02]] in
  let c' := fold_left step [OpGet "a"; OpGet "z"; OpGet "a"] c in
  lookup_data c' "b" = lookup_data c "b"
  ∧ fst (Get "b" c') = fst (Get "b" c)
  ∧ usedBytes c' = usedBytes c
  ∧ ll c' ≡ₚ ll c.
Proof.
  apply (Gets_read_only (run 10 [OpSet "a" [Byte.x01]; OpSet "b" [Byte.x02]])
           [OpGet "a"; OpGet "z"; OpGet "a"] "b").
  repeat constructor.
Defined.

(** ** Only what was set is found *)

Lemma Set_index_keys key data c k :
  is_Some (cache (Set_ key data c) !! k) → k = key ∨ is_Some (cache c !! k).
Proof.
  rewrite Set_eq. destruct (len64 data >? maxBytes c); [by right|].
  intros [e He].
  destruct (evict_loop_frame (length (ll (Set_pre key data c))) (Set_pre key data c))
    as (_ & _ & Hc).
  apply Hc in He. unfold Set_pre in He.
  destruct (cache c !! key) as [elem|]; simpl in He.
  - right. by exists e.
  - destruct (decide (key = k)) as [->|Hne]; [by left|].
    rewrite lookup_insert_ne in He by done. right. by exists e.
Qed.

Lemma index_keys_were_set B ops k :
  is_Some (cache (run B ops) !! k) → ∃ d, OpSet k d ∈ ops.
Proof.
  induction ops as [|o ops IH] using rev_ind.
  - simpl. rewrite lookup_empty. by intros [? ?].
  - rewrite run_snoc. destruct o as [key|key data]; simpl.
    + destruct (Get_frame key (run B ops)) as (_ & -> & _).
      intros Hk. destruct (IH Hk) as [d Hd]. exists d.
      apply elem_of_app. by left.
    + intros Hk. apply Set_index_keys in Hk as [->|Hk].
      * exists data. apply elem_of_app. right. by left.
      * destruct (IH Hk) as [d Hd]. exists d. apply elem_of_app. by left.
Qed.

(** X16: whatever the budget and the operations, a [Get] finds only keys
    that have been [Set]: for a key that no operation has set, it misses
    and returns no bytes. *)
Theorem never_set_key_misses (B : Z) (ops : list op) (key : string) :
  (∀ d, OpSet key d ∉ ops) →
  fst (Get key (run B ops)) = ([], false).
Proof.
  intros Hnever. unfold Get.
  destruct (cache (run B ops) !! key) as [e|] eqn:Hk; [|done].
  destruct (index_keys_were_set B ops key) as [d Hd]; [by exists e|].
  by apply Hnever in Hd.
Qed.

Lemma never_set_key_misses_witness :
  fst (Get "z" (run 10 [OpSet "a" [Byte.x01]; OpGet "z"])) = ([], false).
Proof.
  apply (never_set_key_misses 10 [OpSet "a" [Byte.x01]; OpGet "z"] "z").
  intros d Hin. apply elem_of_cons in Hin as [Heq|Hin]; [by injection Heq|].
  apply elem_of_cons in Hin as [Heq|Hin]; [done|by apply elem_of_nil in Hin].
Defined.

End CacheExtra.

(** * Further properties of the reader and the handler *)

Module HandlerExtra.

Import Reader Handler HandlerSpec HandlerProps.

(** ** Reading a whole file *)

Lemma buf_write buf (data : bytes) :
  (if 0 <? len64 data then buf ++ take (Z.to_nat (len64 data)) data else buf)
  = buf ++ data.
Proof.
  unfold len64. rewrite Nat2Z.id, firstn_all.
  destruct (0 <? Z.of_nat (length data)) eqn:Hpos; [done|].
  rewrite Z.ltb_ge in Hpos. destruct data; [by rewrite app_nil_r|simpl in Hpos; lia].
Qed.

Lemma unguarded_whole f buf w :
  fst (read_loop Background None f buf w)
    = (match script_end f with
       | AtEOF => (buf ++ script_bytes f, None)
       | Failed e => ([], Some (PathError e))
       end)
  ∧ now (snd (read_loop Background None f buf w)) = now w + script_duration f.
Proof.
  revert buf w. induction f as [data dur rest IH|data e dur]; intros buf w;
    rewrite read_loop_eq; cbv zeta;
    change (ctx_Err Background (now w)) with (@None error);
    cbn [reader_Read next_read ro_data ro_err ro_dur fst snd];
    rewrite buf_write.
  - destruct (IH (buf ++ data)
                (emit (EvRead (len64 data) None) (advance dur w))) as [-> ->].
    simpl. rewrite <- app_assoc. split; [done|lia].
  - destruct e as [|e]; simpl; done.
Qed.

(** X7: under a context that is never done, an attempt without the gate
    returns the whole file, the bytes of all its reads in order, when the
    file ends with end-of-data, and the failure without any bytes when a
    read fails; it takes the time of the open and of all the reads. *)
Theorem unguarded_read_is_whole (h : FileHandler) (env : Env) (w : World)
    (file : file_script) :
  open_result (attempts env (opened w)) = inr file →
  fst (doRead h env Background false w) = whole_read file
  ∧ now (snd (doRead h env Background false w))
    = now w + Z.of_N (open_dur (attempts env (opened w))) + script_duration file.
Proof.
  intros Hopen. rewrite doRead_eq. cbv zeta. rewrite Hopen.
  match goal with |- context [read_loop Background None file [] ?w1] =>
    destruct (unguarded_whole file [] w1) as [-> ->] end.
  unfold whole_read. simpl. split; [by destruct (script_end file)|done].
Qed.

Lemma unguarded_read_is_whole_witness :
  fst (doRead h_example steady_env Background false w0) = whole_read steady_file
  ∧ now (snd (doRead h_example steady_env Background false w0))
    = now w0 + Z.of_N (open_dur (attempts steady_env (opened w0)))
      + script_duration steady_file.
Proof.
  apply (unguarded_read_is_whole h_example steady_env w0 steady_file). reflexivity.
Defined.

(** ** The gate is transparent while the rate holds *)

Lemma guarded_as_unguarded c r f buf w w' :
  ctx r = c → now w = now w' →
  Forall (fun p => too_slow (checkTime r) (minSpeed r) p = false)
         (checkpoints f (bytesRead r) (now w - startTime r)) →
  fst (read_loop c (Some r) f buf w) = fst (read_loop c None f buf w')
  ∧ now (snd (read_loop c (Some r) f buf w)) = now (snd (read_loop c None f buf w')).
Proof.
  revert r buf w w'. induction f as [data dur rest IH|data e dur];
    intros r buf w w' Hc Hnow Hok; rewrite !read_loop_eq; cbv zeta;
    rewrite <- Hnow;
    (destruct (ctx_Err c (now w)) as [err|] eqn:Hctx; [done|]);
    (rewrite guarded_step by (by rewrite Hc)); cbv zeta;
    cbn [reader_Read next_read ro_data ro_err ro_dur fst snd];
    simpl in Hok; apply Forall_cons in Hok as [Hhd Htl];
    replace (now w - startTime r + Z.of_N dur)
      with (now w + Z.of_N dur - startTime r) in * by lia;
    rewrite Hhd.
  - apply IH; [done|simpl; lia|exact Htl].
  - destruct e as [|e]; simpl; split; try done; lia.
Qed.

(** X8: when no judgment of the gated attempt finds the rate below the
    minimum, the gate changes nothing: whatever the context does, the gated
    attempt returns the bytes and the error that the attempt without the
    gate returns, and takes the same time. *)
Theorem gate_is_transparent (h : FileHandler) (env : Env) (c : Context) (w : World) :
  (∀ file, open_result (attempts env (opened w)) = inr file → rate_ok h file) →
  fst (doRead h env c true w) = fst (doRead h env c false w)
  ∧ now (snd (doRead h env c true w)) = now (snd (doRead h env c false w)).
Proof.
  intros Hok. rewrite !doRead_eq. cbv zeta.
  destruct (open_result (attempts env (opened w))) as [e|file] eqn:Hopen; [done|].
  apply guarded_as_unguarded; [done|done|].
  simpl. rewrite Z.sub_diag. by apply Hok.
Qed.

Lemma gate_is_transparent_witness :
  fst (doRead h_example steady_env (req_ctx initiator) true w0)
  = fst (doRead h_example steady_env (req_ctx initiator) false w0)
  ∧ now (snd (doRead h_example steady_env (req_ctx initiator) true w0))
    = now (snd (doRead h_example steady_env (req_ctx initiator) false w0)).
Proof.
  apply (gate_is_transparent h_example steady_env (req_ctx initiator) w0).
  intros file [= <-]. unfold rate_ok. repeat constructor.
Defined.

(** ** A fetch returns the file whether or not it hedges *)

Lemma rate_ok_or_fails h f : rate_ok h f ∨ rate_fails h f.
Proof.
  unfold rate_ok, rate_fails. induction (checkpoints f 0 0) as [|p l IH].
  - left. constructor.
  - destruct (too_slow (h_checkTime h) (h_minSpeed h) p) eqn:Hp.
    + right. by left.
    + destruct IH as [IH|IH]; [left; by constructor|right; by right].
Qed.

Lemma doRead_opened h env c g w : opened (snd (doRead h env c g w)) = S (opened w).
Proof. by destruct (doRead_reads h env c g w) as (evs & _ & _ & Ho & _). Qed.

(** X9: under a context that is never done, when the file opens at both
    attempts and reads through to its end with the same bytes, the fetch
    returns those bytes without an error, whether the gated attempt
    completed or was aborted and replaced by the second attempt. *)
Theorem fetch_returns_file (h : FileHandler) (env : Env) (w : World)
    (file1 file2 : file_script) :
  open_result (attempts env (opened w)) = inr file1 →
  open_result (attempts env (S (opened w))) = inr file2 →
  script_end file1 = AtEOF → script_end file2 = AtEOF →
  script_bytes file1 = script_bytes file2 →
  fst (readHedged h env Background w) = (script_bytes file1, None).
Proof.
  intros Hopen1 Hopen2 Hend1 Hend2 Hbytes.
  assert (∀ w1 file, opened w1 = opened w ∨ opened w1 = S (opened w) →
            open_result (attempts env (opened w1)) = inr file →
            script_end file = AtEOF →
            fst (doRead h env Background false w1) = (script_bytes file, None))
    as Hplain.
  { intros w1 file _ Hopen Hend. rewrite doRead_eq. cbv zeta. rewrite Hopen.
    match goal with |- context [read_loop Background None file [] ?w'] =>
      destruct (unguarded_whole file [] w') as [-> _] end.
    by rewrite Hend. }
  destruct (rate_ok_or_fails h file1) as [Hok|Hfail].
  - assert (fst (doRead h env Background true w) = (script_bytes file1, None))
      as Hfirst.
    { rewrite <- (Hplain w file1) by (done || by left).
      rewrite !doRead_eq. cbv zeta. rewrite Hopen1.
      apply guarded_as_unguarded; [done|done|].
      simpl. by rewrite Z.sub_diag. }
    rewrite readHedged_eq, Hfirst. simpl. by rewrite Hfirst.
  - pose proof (doRead_guarded_trips h env w file1 Hopen1 Hfail) as Htrip.
    rewrite readHedged_second by (by rewrite Htrip).
    set (w2 := Sleep env (hedgedDelay h) (snd (doRead h env Background true w))).
    assert (opened w2 = S (opened w)) as Ho.
    { unfold w2, Sleep. simpl. apply doRead_opened. }
    rewrite (Hplain w2 file2); [by rewrite Hbytes|by right|by rewrite Ho|done].
Qed.

Lemma fetch_returns_file_witness :
  fst (readHedged h_example stalling_env Background w0)
  = (script_bytes stalling_file, None).
Proof.
  apply (fetch_returns_file h_example stalling_env w0 stalling_file stalling_file);
    reflexivity.
Defined.

(** ** Errors carry no bytes *)

Lemma read_loop_error_no_bytes c rd f buf w :
  snd (fst (read_loop c rd f buf w)) ≠ None →
  fst (fst (read_loop c rd f buf w)) = [].
Proof.
  revert rd buf w. induction f as [data dur rest IH|data e dur];
    intros rd buf w; rewrite read_loop_eq; cbv zeta;
    (destruct (ctx_Err c (now w)) as [err|]; [done|]);
    destruct (reader_Read rd _ w) as [[[n [err|]] rd'] w1]; simpl;
    try (by destruct (errors_Is err EOF)); try done.
  apply IH.
Qed.

(** X10: an attempt or a fetch that returns an error returns no bytes with
    it: what was read before a cancellation, a read failure or an abort is
    dropped. *)
Theorem error_carries_no_bytes (h : FileHandler) (env : Env) (c : Context)
    (g : bool) (w : World) :
  (snd (fst (doRead h env c g w)) ≠ None → fst (fst (doRead h env c g w)) = [])
  ∧ (snd (fst (readHedged h env c w)) ≠ None →
     fst (fst (readHedged h env c w)) = []).
Proof.
  assert (∀ g w, snd (fst (doRead h env c g w)) ≠ None →
                 fst (fst (doRead h env c g w)) = []) as Hone.
  { intros g' w'. rewrite doRead_eq. cbv zeta.
    destruct (open_result (attempts env (opened w'))) as [e|file]; [done|].
    apply read_loop_error_no_bytes. }
  split; [apply Hone|].
  rewrite readHedged_eq.
  destruct (snd (fst (doRead h env c true w))) as [e|] eqn:He.
  - destruct (errors_Is e ErrTooSlow); [apply Hone|done].
  - by rewrite He.
Qed.

Lemma error_carries_no_bytes_witness :
  fst (fst (readHedged h_example steady_env (req_ctx initiator) w0)) = [].
Proof.
  apply (error_carries_no_bytes h_example steady_env (req_ctx initiator) true w0).
  by vm_compute.
Defined.

(** ** Cancellation before the fetch starts *)

(** X11: a fetch started under a context that is already done still opens
    the file once, then returns the context's error without a single read,
    without sleeping and without a second attempt. *)
Theorem fetch_under_done_context (h : FileHandler) (env : Env) (c : Context)
    (w : World) (err : error) (file : file_script) :
  ctx_Err c (now w) = Some err →
  open_result (attempts env (opened w)) = inr file →
  fst (readHedged h env c w) = ([], Some err)
  ∧ new_events w (snd (readHedged h env c w)) = [EvOpen true (now w)].
Proof.
  intros Hctx Hopen.
  assert (doRead h env c true w
          = (([], Some err),
             mkWorld (now w + Z.of_N (open_dur (attempts env (opened w))))
                     (S (opened w)) (log w ++ [EvOpen true (now w)]))) as Hfirst.
  { rewrite doRead_eq. cbv zeta. rewrite Hopen, read_loop_eq. simpl.
    by rewrite (ctx_Err_mono c (now w) _ err Hctx) by lia. }
  rewrite readHedged_eq, Hfirst. simpl.
  destruct (ctx_Err_context _ _ _ Hctx) as [e ->]. simpl.
  split; [done|]. by apply new_events_app.
Qed.

Lemma fetch_under_done_context_witness :
  fst (readHedged h_example steady_env (mkContext (Some (0, Canceled))) w0)
  = ([], Some (ContextError Canceled))
  ∧ new_events w0 (snd (readHedged h_example steady_env
                          (mkContext (Some (0, Canceled))) w0))
    = [EvOpen true (now w0)].
Proof.
  apply (fetch_under_done_context h_example steady_env
           (mkContext (Some (0, Canceled))) w0 _ steady_file); reflexivity.
Defined.

(** ** An abort takes at least the window *)

Lemma guarded_abort_after_window c r f buf w :
  snd (fst (read_loop c (Some r) f buf w)) = Some ErrTooSlow →
  now (snd (read_loop c (Some r) f buf w)) - startTime r >= checkTime r.
Proof.
  revert r buf w. induction f as [data dur rest IH|data e dur];
    intros r buf w; rewrite read_loop_eq; cbv zeta;
    (destruct (ctx_Err c (now w)) as [err|] eqn:Hctx;
      [apply ctx_Err_context in Hctx as [ce ->]; done|]);
    (destruct (ctx_Err (ctx r) (now w)) as [err|] eqn:Hr;
      [rewrite (guarded_step_cancelled _ _ _ _ Hr);
       apply ctx_Err_context in Hr as [ce ->]; done|]);
    rewrite (guarded_step _ _ _ Hr); cbv zeta;
    cbn [next_read ro_data ro_err ro_dur fst snd];
    (destruct (too_slow _ _ _) eqn:Hslow;
      [simpl; intros _; unfold too_slow in Hslow; simpl in Hslow;
       apply andb_prop in Hslow as [Hge _]; rewrite Z.geb_le in Hge; lia|]).
  - intros Hres. apply IH in Hres. exact Hres.
  - destruct e as [|e]; simpl; done.
Qed.

(** X12: the gated attempt never gives up before the measurement window has
    elapsed: when it ends with the too-slow error, at least the window has
    passed since the fetch began, and the fetch as a whole then takes at
    least the window plus the hedge delay. *)
Theorem abort_takes_the_window (h : FileHandler) (env : Env) (c : Context)
    (w : World) :
  snd (fst (doRead h env c true w)) = Some ErrTooSlow →
  now (snd (doRead h env c true w)) - now w >= h_checkTime h
  ∧ now (snd (readHedged h env c w)) - now w >= h_checkTime h + hedgedDelay h.
Proof.
  intros Hslow.
  assert (now (snd (doRead h env c true w)) - now w >= h_checkTime h) as Hfirst.
  { revert Hslow. rewrite doRead_eq. cbv zeta.
    destruct (open_result (attempts env (opened w))) as [e|file]; [done|].
    intros Hslow. apply guarded_abort_after_window in Hslow.
    simpl in Hslow |- *. lia. }
  split; [done|].
  rewrite (readHedged_second h env c w Hslow).
  set (w2 := Sleep env (hedgedDelay h) (snd (doRead h env c true w))).
  destruct (doRead_reads h env c false w2) as (evs & _ & _ & _ & Hnow).
  destruct (Sleep_pause env (hedgedDelay h) (snd (doRead h env c true w)))
    as (Hpause & _). fold w2 in Hpause. lia.
Qed.

Lemma abort_takes_the_window_witness :
  now (snd (doRead h_example stalling_env Background true w0)) - now w0
    >= h_checkTime h_example
  ∧ now (snd (readHedged h_example stalling_env Background w0)) - now w0
    >= h_checkTime h_example + hedgedDelay h_example.
Proof.
  apply (abort_takes_the_window h_example stalling_env Background w0).
  by vm_compute.
Defined.

(** ** [ServeHTTP] *)



(** X14: what has been served is served from the cache afterwards.  When a
    request on a cache reached by any operations is answered with a payload
    that fits the budget, every later [GET] of the same path on the cache
    it leaves is answered with the same payload, without going to the
    storage, whatever the storage and the context have become. *)
Theorem served_then_cached (Join : string → string → string)
    (B : Z) (ops : list Cache.op) (h : FileHandler)
    (env env' : Env) (r r' : Request)
    (inflight inflight' : option ((bytes * option error) * Time))
    (w w' w2 : World) (val : bytes) (mc' : Cache.MemoryCache) :
  0 <= B → B < 2 ^ 62 →
  ServeHTTP Join h env r inflight (Cache.run B ops) w = (Served val, mc', w') →
  len64 val <= B →
  Method r' = "GET"%string → cleanPath r' = cleanPath r →
  fst (fst (ServeHTTP Join h env' r' inflight' mc' w2)) = Served val
  ∧ snd (ServeHTTP Join h env' r' inflight' mc' w2) = w2.
Proof.
  intros HB0 HB Hfirst Hfit Hget Hpath.
  assert (filePath Join h r' = filePath Join h r) as Hfp
    by (unfold filePath; by rewrite Hpath).
  assert (cleanPath r ≠ "/"%string
          ∧ fst (Cache.Get (filePath Join h r) mc') = (val, true)) as [Hroot Hhit].
  { rewrite ServeHTTP_eq in Hfirst.
    destruct (negb _); [done|].
    destruct (bool_decide (cleanPath r = "/"%string)) eqn:Hp; [done|].
    apply bool_decide_eq_false in Hp. split; [done|].
    destruct (Cache.cache (Cache.run B ops) !! filePath Join h r) as [e|] eqn:Hk.
    - injection Hfirst as <- <- _.
      rewrite (CacheExtra.Get_fst_frame _ (Cache.run B ops));
        [|apply CacheExtra.Get_frame..].
      unfold Cache.Get. by rewrite Hk.
    - cbv zeta in Hfirst.
      destruct (snd (fst (sfGroup_Do _ _ _))) as [e|].
      { by destruct (os_IsNotExist e). }
      injection Hfirst as <- <- _.
      destruct (CacheExtra.Set_indexes_payload B ops (filePath Join h r) _ HB0 HB Hfit)
        as (e & He & Hd).
      unfold Cache.Get. rewrite He. simpl. by rewrite Hd. }
  rewrite ServeHTTP_eq, Hget, Hpath, Hfp. simpl.
  rewrite bool_decide_eq_false_2 by done.
  unfold Cache.Get in Hhit.
  destruct (Cache.cache mc' !! filePath Join h r) as [e|]; [|done].
  simpl in Hhit. injection Hhit as <-. done.
Qed.

Lemma served_then_cached_witness :
  let out := ServeHTTP join_clean h_example steady_env waiter None
               (Cache.run 1073741824 []) w0 in
  fst (fst (ServeHTTP join_clean h_example missing_env waiter None
              (snd (fst out)) (snd out)))
  = Served (repeat Byte.x00 2048)
  ∧ snd (ServeHTTP join_clean h_example missing_env waiter None
           (snd (fst out)) (snd out))
    = snd out.
Proof.
  intros out.
  apply (served_then_cached join_clean 1073741824 [] h_example steady_env
           missing_env waiter waiter None None w0 (snd out) (snd out)
           (repeat Byte.x00 2048) (snd (fst out)));
    try lia; try reflexivity.
  by vm_compute.
Defined.

(** X15: [ServeHTTP] changes the cache only when it serves a payload: a
    request answered with an error (method not allowed, forbidden, not
    found, internal server error) leaves the cache exactly as it was, and so
    does a miss whose payload is larger than the budget, which is served
    without being cached. *)
Theorem cache_changes_only_when_serving (Join : string → string → string)
    (h : FileHandler) (env : Env) (r : Request)
    (inflight : option ((bytes * option error) * Time)) (mc : Cache.MemoryCache)
    (w : World) :
  let out := ServeHTTP Join h env r inflight mc w in
  ((∀ val, fst (fst out) ≠ Served val) → snd (fst out) = mc)
  ∧ (∀ val, fst (fst out) = Served val →
       Cache.lookup_data mc (filePath Join h r) = None →
       Cache.maxBytes mc < len64 val →
       snd (fst out) = mc).
Proof.
  intros out. unfold out. rewrite ServeHTTP_eq.
  destruct (negb _); [done|].
  destruct (bool_decide (cleanPath r = "/"%string)); [done|].
  destruct (Cache.cache mc !! filePath Join h r) as [e|] eqn:Hk.
  { split.
    - intros Hno. by specialize (Hno (Cache.Data (Cache.Value mc e))).
    - intros val _ Hmiss. unfold Cache.lookup_data in Hmiss. by rewrite Hk in Hmiss. }
  cbv zeta. destruct (snd (fst (sfGroup_Do _ _ _))) as [e|].
  { destruct (os_IsNotExist e); done. }
  split.
  - intros Hno. by specialize (Hno (fst (fst (sfGroup_Do inflight
        (fun w0 => readHedged h env (req_ctx r) w0) w)))).
  - intros val [= <-] _ Hbig. simpl. by apply CacheExtra.Set_too_big.
Qed.

Lemma cache_changes_only_when_serving_witness :
  snd (fst (ServeHTTP join_clean h_example missing_env waiter None mc0 w0)) = mc0.
Proof.
  apply (cache_changes_only_when_serving join_clean h_example missing_env waiter
           None mc0 w0).
  intros val. by vm_compute.
Defined.

End HandlerExtra.
